(** * Paperbag: the image-transformation request lifecycle

    A shallow embedding of the security layer of the Paperbag application:
    - [RateLimiter] and [SecurityAuditLogger] (src/lib/security.ts),
    - [withRetry] (the error-handling module),
    - [withSecurity] and [secureCartoonifyImage] (convex/security.ts).

    Numbers that the program uses as integers (epoch milliseconds, request
    counts, retry counts) are modelled as [Z]; the JS [Map] of the rate
    limiter is a [gmap]; arrays are lists. *)

From Stdlib Require Import ZArith List Lia Bool.
From Stdlib.Strings Require Ascii String Byte.
From stdpp Require Import base gmap strings list.

Local Open Scope Z_scope.

(** ** Rate limiter (class [RateLimiter]) *)

Module RateLimiter.

(** The three fields of the class.  [windowMs] and [maxRequests] are
    readonly; every method returns the object after the call. *)
Record t := mk {
  requests : gmap string (list Z);
  windowMs : Z;
  maxRequests : Z
}.

(** [new RateLimiter(windowMs, maxRequests)] *)
Definition new (windowMs maxRequests : Z) : t :=
  mk ∅ windowMs maxRequests.

Definition set_requests (m : gmap string (list Z)) (rl : t) : t :=
  mk m (windowMs rl) (maxRequests rl).

(** [this.requests.get(identifier) || []] *)
Definition stored (rl : t) (identifier : string) : list Z :=
  default [] (requests rl !! identifier).

(** [requests.filter(time => now - time < this.windowMs)] *)
Definition valid_at (rl : t) (now : Z) (reqs : list Z) : list Z :=
  List.filter (fun time => now - time <? windowMs rl) reqs.

(** [isAllowed(identifier)]; [now] is the value of [Date.now()]. *)
Definition isAllowed (now : Z) (identifier : string) (rl : t) : bool * t :=
  let reqs := stored rl identifier in
  let validRequests := valid_at rl now reqs in
  if maxRequests rl <=? Z.of_nat (length validRequests) then
    (false, rl)
  else
    (true, set_requests (<[identifier := validRequests ++ [now]]> (requests rl)) rl).

(** [getRemainingRequests(identifier)] *)
Definition getRemainingRequests (now : Z) (identifier : string) (rl : t) : Z * t :=
  let reqs := stored rl identifier in
  let validRequests := valid_at rl now reqs in
  (Z.max 0 (maxRequests rl - Z.of_nat (length validRequests)), rl).

(** [Math.min(...xs)] on a non-empty array [x :: xs]. *)
Definition math_min (x : Z) (xs : list Z) : Z := fold_left Z.min xs x.

(** [getResetTime(identifier)] *)
Definition getResetTime (now : Z) (identifier : string) (rl : t) : Z * t :=
  let reqs := stored rl identifier in
  let validRequests := valid_at rl now reqs in
  match validRequests with
  | [] => (now, rl)
  | x :: xs => (math_min x xs + windowMs rl, rl)
  end.

(** A history of [isAllowed] calls: the clock reading and the identifier of
    each call, oldest first.  [run] performs them in order and returns the
    answer of each call together with the limiter after the last one. *)
Fixpoint run (calls : list (Z * string)) (rl : t) : list (Z * string * bool) * t :=
  match calls with
  | [] => ([], rl)
  | (now, identifier) :: rest =>
      let '(b, rl1) := isAllowed now identifier rl in
      let '(out, rl2) := run rest rl1 in
      ((now, identifier, b) :: out, rl2)
  end.

(** The number of calls of a history that were made for [identifier] and
    answered [true]. *)
Definition allowed_count (identifier : string) (out : list (Z * string * bool)) : nat :=
  length (List.filter (fun c => snd c && String.eqb (snd (fst c)) identifier)%bool out).

(** The number of timestamps of a record that are not older than [t0]. *)
Definition recent (t0 : Z) (l : list Z) : nat :=
  length (List.filter (fun x => t0 <=? x) l).

End RateLimiter.

(** ** Security audit logger (class [SecurityAuditLogger]) *)

Module SecurityAuditLogger.

Inductive level := info | warning | error.

(** The string a level is at run time. *)
Definition level_name (l : level) : string :=
  match l with
  | info => "info"
  | warning => "warning"
  | error => "error"
  end.

(** The values that the program puts into the [details] of an entry.
    [JIsoDate ms] is [new Date(ms).toISOString()]. *)
Inductive jsval :=
| JUndefined
| JString (s : string)
| JNumber (z : Z)
| JStrings (l : list string)
| JIsoDate (ms : Z).

Record entry := mkEntry {
  timestamp : Z;
  entry_level : level;
  event : string;
  details : list (string * jsval);
  userId : option string;
  ip : option string
}.

(** The private field [logs]. *)
Record t := mk { logs : list entry }.

Definition new : t := mk [].

(** [xs.slice(-n)]: the last [n] elements. *)
Definition slice_last {A} (n : nat) (xs : list A) : list A :=
  skipn (length xs - n) xs.

(** [log(level, event, details, userId?, ip?)]; [now] is the instant of
    [new Date()].  The [console.warn] of production builds writes to the
    console only and is not part of the stored log. *)
Definition log (now : Z) (lvl : level) (ev : string) (det : list (string * jsval))
    (uid : option string) (addr : option string) (lg : t) : t :=
  let logEntry := mkEntry now lvl ev det uid addr in
  let pushed := logs lg ++ [logEntry] in
  if (1000 <? length pushed)%nat then mk (slice_last 1000 pushed) else mk pushed.

(** The optional argument of [getLogs]. [since] is a [Date], given by its
    instant. *)
Record log_filter := mkFilter {
  filter_level : option string;
  filter_userId : option string;
  filter_since : option Z
}.

(** Truthiness of an optional string: [undefined] and [""] are falsy. *)
Definition truthy (s : option string) : bool :=
  match s with
  | Some x => negb (String.eqb x "")
  | None => false
  end.

(** [a === b] for an optional string [a] and a string [b]. *)
Definition strict_eq (a : option string) (b : string) : bool :=
  match a with
  | Some x => String.eqb x b
  | None => false
  end.

(** [getLogs(filter?)] *)
Definition getLogs (filter : option log_filter) (lg : t) : list entry :=
  let filteredLogs := logs lg in
  match filter with
  | None => filteredLogs
  | Some f =>
      let by_level :=
        if truthy (filter_level f) then
          List.filter (fun l => strict_eq (filter_level f) (level_name (entry_level l))) filteredLogs
        else filteredLogs in
      let by_user :=
        if truthy (filter_userId f) then
          List.filter (fun l => match filter_userId f with
                                | Some u => strict_eq (userId l) u
                                | None => false
                                end) by_level
        else by_level in
      match filter_since f with
      | Some since => List.filter (fun l => since <=? timestamp l) by_user
      | None => by_user
      end
  end.

(** One call of [log], as data: the instant of the call and its arguments. *)
Record call := mkCall {
  call_now : Z;
  call_level : level;
  call_event : string;
  call_details : list (string * jsval);
  call_userId : option string;
  call_ip : option string
}.

Definition entry_of (c : call) : entry :=
  mkEntry (call_now c) (call_level c) (call_event c) (call_details c)
          (call_userId c) (call_ip c).

Definition log_call (lg : t) (c : call) : t :=
  log (call_now c) (call_level c) (call_event c) (call_details c)
      (call_userId c) (call_ip c) lg.

(** A sequence of [log] calls, oldest first. *)
Definition log_all (cs : list call) (lg : t) : t := fold_left log_call cs lg.

(** Whether an entry passes the filter of [getLogs]: a field of the filter
    that is absent or the empty string imposes no condition. *)
Definition passes (f : log_filter) (l : entry) : bool :=
  (negb (truthy (filter_level f)) || strict_eq (filter_level f) (level_name (entry_level l)))
  && (negb (truthy (filter_userId f)) ||
      match filter_userId f with Some u => strict_eq (userId l) u | None => false end)
  && match filter_since f with Some since => since <=? timestamp l | None => true end.

End SecurityAuditLogger.

(** ** Retry with exponential backoff ([withRetry]) *)

Module Retry.

(** What [withRetry] does to the outside: it invokes the operation and it
    waits on a timer. *)
Inductive event := Invoke | Wait (ms : Z).

(** How the returned promise settles.  [Rejected None] is the rejection with
    [undefined] of a loop that never ran. *)
Inductive settled (T E : Type) :=
| Resolved (v : T)
| Rejected (e : option E).
Arguments Resolved {T E} v.
Arguments Rejected {T E} e.

Section WithRetry.

Context {W T E : Type}.

(** [operation()] awaited in a world [w]: its result or the error it throws,
    and the world it leaves. *)
Variable operation : W -> (T + E) * W.

(** [await new Promise(resolve => setTimeout(resolve, waitTime))]: the world
    after the wait. *)
Variable sleep : Z -> W -> W.

Variables maxRetries delay : Z.

(** The [for] loop from a given [attempt].  [fuel] bounds the number of
    iterations; [None] means the bound was reached. *)
Fixpoint retry_loop (fuel : nat) (attempt : Z) (lastError : option E) (w : W)
    : option (settled T E * W * list event) :=
  if attempt <=? maxRetries then
    match fuel with
    | O => None
    | S fuel' =>
        match operation w with
        | (inl v, w1) => Some (Resolved v, w1, [Invoke])
        | (inr error, w1) =>
            if attempt =? maxRetries then
              Some (Rejected (Some error), w1, [Invoke])
            else
              let waitTime := delay * 2 ^ attempt in
              match retry_loop fuel' (attempt + 1) (Some error) (sleep waitTime w1) with
              | Some (r, w2, evs) => Some (r, w2, Invoke :: Wait waitTime :: evs)
              | None => None
              end
        end
    end
  else Some (Rejected lastError, w, []).

(** [withRetry(operation, maxRetries, delay)] *)
Definition withRetry (w : W) : option (settled T E * W * list event) :=
  retry_loop (Z.to_nat (maxRetries + 1)) 0 None w.

(** The world in which attempt number [attempt + k] starts when the [k]
    attempts from [attempt] on have failed. *)
Fixpoint advance (k : nat) (attempt : Z) (w : W) : W :=
  match k with
  | O => w
  | S j => advance j (attempt + 1) (sleep (delay * 2 ^ attempt) (snd (operation w)))
  end.

(** [k] failed attempts from [attempt] on, each followed by its wait, and one
    more attempt. *)
Fixpoint backoff (k : nat) (attempt : Z) : list event :=
  match k with
  | O => [Invoke]
  | S j => Invoke :: Wait (delay * 2 ^ attempt) :: backoff j (attempt + 1)
  end.

Definition is_invoke (e : event) : bool :=
  match e with Invoke => true | Wait _ => false end.

Definition invocations (evs : list event) : nat := length (List.filter is_invoke evs).

Definition waits (evs : list event) : list Z :=
  flat_map (fun e => match e with Invoke => [] | Wait ms => [ms] end) evs.

End WithRetry.

End Retry.

(** ** The secured mutation [secureCartoonifyImage] (convex/security.ts) *)

Module Security.

Import SecurityAuditLogger.

(** *** Data *)

(** [ImageStatus] *)
Inductive ImageStatus := pending | processing | completed | failed | error.

(** A document of the table [images]. *)
Record image := mkImage {
  _id : string;
  image_userId : string;
  originalStorageId : string;
  originalImageUrl : option string;
  cartoonImageUrl : option string;
  status : ImageStatus;
  createdAt : Z;
  updatedAt : Z
}.

(** The identity that the identity provider reports. *)
Record UserIdentity := mkIdentity { subject : string }.

(** The arguments of the mutation. *)
Record cartoonify_args := mkArgs {
  storageId : string;
  style : string;
  userAgent : option string;
  ipAddress : option string
}.

(** The value the mutation returns. *)
Record response := mkResponse { success : bool; response_status : string }.

(** A job in the queue of the scheduler: the delay and the payload that
    [ctx.scheduler.runAfter] is given for the image generator. *)
Record job := mkJob {
  job_delay : Z;
  job_imageUrl : option string;
  job_userId : string;
  job_style : string
}.

(** What a [throw] can carry.  [ConvexError] extends [Error]; its message is
    its string data. *)
Inductive js_thrown :=
| ConvexError (data : string)
| JsError (message : string)
| JsNonError.

(** [error instanceof Error ? error.message : 'Unknown error'] *)
Definition error_message (e : js_thrown) : string :=
  match e with
  | ConvexError data => data
  | JsError message => message
  | JsNonError => "Unknown error"
  end.

(** A promise, given by the value it settles to. *)
Inductive promise (A : Type) := Promise (value : A).
Arguments Promise {A} value.

(** [await p] *)
Definition await {A} (p : promise A) : A :=
  match p with Promise value => value end.

(** [p?.subject] read off the promise object itself: a promise has no
    property [subject], so the read yields [undefined]. *)
Definition promise_subject {A} (p : promise A) : option string := None.

(** [x || d] for an optional string [x]. *)
Definition or_else (x : option string) (d : string) : string :=
  if truthy x then default d x else d.

(** The collaborators of one invocation that the mutation cannot change:
    the identity provider and the clock ([clock n] is what the [n]-th
    reading of [Date.now()] or [new Date()] gives). *)
Record ctx := mkCtx {
  getUserIdentity : promise (option UserIdentity);
  clock : nat -> Z
}.

(** The three rate limiters of the module. *)
Inductive limiter_ref := uploadRateLimiter | processingRateLimiter | generalRateLimiter.

(** The state an invocation runs in: the table [images], the queue of the
    scheduler, the module's rate limiters and audit logger, and the number
    of clock readings made so far. *)
Record world := mkWorld {
  db : list image;
  scheduled : list job;
  upload_limiter : RateLimiter.t;
  processing_limiter : RateLimiter.t;
  general_limiter : RateLimiter.t;
  securityAuditLogger : SecurityAuditLogger.t;
  reads : nat
}.

(** The world when the module has just been loaded. *)
Definition initial_world (images : list image) : world :=
  mkWorld images []
          (RateLimiter.new 60000 5)
          (RateLimiter.new 300000 3)
          (RateLimiter.new 60000 20)
          SecurityAuditLogger.new 0.

Definition limiter (r : limiter_ref) (w : world) : RateLimiter.t :=
  match r with
  | uploadRateLimiter => upload_limiter w
  | processingRateLimiter => processing_limiter w
  | generalRateLimiter => general_limiter w
  end.

Definition set_limiter (r : limiter_ref) (rl : RateLimiter.t) (w : world) : world :=
  match r with
  | uploadRateLimiter =>
      mkWorld (db w) (scheduled w) rl (processing_limiter w) (general_limiter w)
              (securityAuditLogger w) (reads w)
  | processingRateLimiter =>
      mkWorld (db w) (scheduled w) (upload_limiter w) rl (general_limiter w)
              (securityAuditLogger w) (reads w)
  | generalRateLimiter =>
      mkWorld (db w) (scheduled w) (upload_limiter w) (processing_limiter w) rl
              (securityAuditLogger w) (reads w)
  end.

Definition set_db (d : list image) (w : world) : world :=
  mkWorld d (scheduled w) (upload_limiter w) (processing_limiter w) (general_limiter w)
          (securityAuditLogger w) (reads w).

Definition set_logger (lg : SecurityAuditLogger.t) (w : world) : world :=
  mkWorld (db w) (scheduled w) (upload_limiter w) (processing_limiter w) (general_limiter w)
          lg (reads w).

Definition set_reads (n : nat) (w : world) : world :=
  mkWorld (db w) (scheduled w) (upload_limiter w) (processing_limiter w) (general_limiter w)
          (securityAuditLogger w) n.

(** The calls an invocation makes to the record store, in order.  The
    scheduler is not among the callees: the one call of [runAfter] in the
    module is never entered (see [scheduler_runAfter]). *)
Inductive effect :=
| DbQuery (storage : string)
| DbPatch (id : string) (st : ImageStatus) (at_time : Z).

(** *** The monad of a mutation: state, exceptions and the list of effects *)

Inductive result (A : Type) :=
| Return (a : A)
| Throw (e : js_thrown).
Arguments Return {A} a.
Arguments Throw {A} e.

Definition M (A : Type) : Type := world -> result A * world * list effect.

Definition ret {A} (a : A) : M A := fun w => (Return a, w, []).

Definition throw {A} (e : js_thrown) : M A := fun w => (Throw e, w, []).

Definition bind {A B} (m : M A) (k : A -> M B) : M B :=
  fun w =>
    match m w with
    | (Return a, w1, evs1) =>
        match k a w1 with
        | (r, w2, evs2) => (r, w2, evs1 ++ evs2)
        end
    | (Throw e, w1, evs1) => (Throw e, w1, evs1)
    end.

(** [try { m } catch (error) { handler(error) }] *)
Definition try_catch {A} (m : M A) (handler : js_thrown -> M A) : M A :=
  fun w =>
    match m w with
    | (Return a, w1, evs1) => (Return a, w1, evs1)
    | (Throw e, w1, evs1) =>
        match handler e w1 with
        | (r, w2, evs2) => (r, w2, evs1 ++ evs2)
        end
    end.

Declare Scope mutation_scope.
Delimit Scope mutation_scope with mutation.
Notation "x <- m ;; k" := (bind m (fun x => k))
  (at level 100, m at next level, right associativity) : mutation_scope.
Notation "m ;;; k" := (bind m (fun _ => k))
  (at level 100, right associativity) : mutation_scope.
Local Open Scope mutation_scope.

(** *** Primitive operations *)

(** [Date.now()] and [new Date()]: the next reading of the clock. *)
Definition date_now (c : ctx) : M Z :=
  fun w => (Return (clock c (reads w)), set_reads (S (reads w)) w, []).

(** [securityAuditLogger.log(level, event, details)]: the module never passes
    [userId] or [ip]. *)
Definition audit (c : ctx) (lvl : level) (ev : string) (det : list (string * jsval)) : M unit :=
  now <- date_now c ;;
  fun w => (Return tt,
            set_logger (SecurityAuditLogger.log now lvl ev det None None (securityAuditLogger w)) w,
            []).

(** The methods of a rate limiter of the module; each reads the clock once. *)
Definition limiter_isAllowed (c : ctx) (r : limiter_ref) (identifier : string) : M bool :=
  now <- date_now c ;;
  fun w => let '(b, rl) := RateLimiter.isAllowed now identifier (limiter r w) in
           (Return b, set_limiter r rl w, []).

Definition limiter_getRemainingRequests (c : ctx) (r : limiter_ref) (identifier : string) : M Z :=
  now <- date_now c ;;
  fun w => let '(n, rl) := RateLimiter.getRemainingRequests now identifier (limiter r w) in
           (Return n, set_limiter r rl w, []).

Definition limiter_getResetTime (c : ctx) (r : limiter_ref) (identifier : string) : M Z :=
  now <- date_now c ;;
  fun w => let '(n, rl) := RateLimiter.getResetTime now identifier (limiter r w) in
           (Return n, set_limiter r rl w, []).

(** [ctx.db.query("images").filter(q => q.eq(q.field("originalStorageId"), s)).collect()] *)
Definition db_query_by_storage (s : string) : M (list image) :=
  fun w => (Return (List.filter (fun i => String.eqb (originalStorageId i) s) (db w)),
            w, [DbQuery s]).

Definition patch_image (st : ImageStatus) (t : Z) (i : image) : image :=
  mkImage (_id i) (image_userId i) (originalStorageId i) (originalImageUrl i)
          (cartoonImageUrl i) st (createdAt i) t.

Definition patch_db (id : string) (st : ImageStatus) (t : Z) (d : list image) : list image :=
  map (fun i => if String.eqb (_id i) id then patch_image st t i else i) d.

(** [ctx.db.patch(id, { status, updatedAt })] *)
Definition db_patch (id : string) (st : ImageStatus) (t : Z) : M unit :=
  fun w => (Return tt, set_db (patch_db id st t (db w)) w, [DbPatch id st t]).

(** [internal.image.ImageGen], the second argument of the call of
    [runAfter] (line 235).  The module never binds [internal]: its imports
    (lines 1-3) are [ConvexError], [v], [mutation], [query], [action],
    [securityAuditLogger], [RateLimiter], [validateFileSecurity] and
    [sanitizeInput], and it declares only its three limiters, [withSecurity]
    and the functions it exports.  Evaluating the identifier therefore throws
    a [ReferenceError], which is an [Error] whose message is
    "internal is not defined". *)
Definition internal_image_ImageGen {A} : M A :=
  throw (JsError "internal is not defined").

(** [ctx.scheduler.runAfter(0, internal.image.ImageGen, payload)]: the
    arguments of a call are evaluated before the function is entered, and
    the second one throws, so [runAfter] is not called and the queue of the
    scheduler stays as it is. *)
Definition scheduler_runAfter (j : job) : M unit :=
  internal_image_ImageGen.

(** *** [withSecurity] *)

(** The [options] of [withSecurity]. *)
Record options := mkOptions {
  rateLimiter : option limiter_ref;
  requireAuth : bool;
  auditEvent : option string
}.

(** An optional string as a value of [details]. *)
Definition js_opt (s : option string) : jsval :=
  match s with
  | Some x => JString x
  | None => JUndefined
  end.

(** [identity?.subject] *)
Definition subject_of (identity : option UserIdentity) : option string :=
  subject <$> identity.

(** The identifier under which [withSecurity] counts a call:
    [ctx.auth?.getUserIdentity?.()?.subject || 'anonymous'], where the call
    of [getUserIdentity] is not awaited. *)
Definition rate_limit_identifier (c : ctx) : string :=
  or_else (promise_subject (getUserIdentity c)) "anonymous".

(** [withSecurity(handler, options)].  [handler_name] is [handler.name] and
    [typeof_args] is [args.map(arg => typeof arg)]. *)
Definition withSecurity {A R} (handler_name : string) (typeof_args : A -> list string)
    (handler : ctx -> A -> M R) (opts : options) : ctx -> A -> M R :=
  fun c args =>
    (if requireAuth opts then
       match await (getUserIdentity c) with
       | None =>
           audit c warning "unauthorized_access_attempt"
                 [("function", JString handler_name);
                  ("args", JStrings (typeof_args args))] ;;;
           throw (ConvexError "Authentication required")
       | Some _ => ret tt
       end
     else ret tt) ;;;
    (match rateLimiter opts with
     | Some r =>
         let identifier := rate_limit_identifier c in
         allowed <- limiter_isAllowed c r identifier ;;
         if negb allowed then
           remaining <- limiter_getRemainingRequests c r identifier ;;
           resetTime <- limiter_getResetTime c r identifier ;;
           audit c warning "rate_limit_exceeded"
                 [("function", JString handler_name);
                  ("identifier", JString identifier);
                  ("remainingRequests", JNumber remaining);
                  ("resetTime", JNumber resetTime)] ;;;
           throw (ConvexError "Rate limit exceeded. Please try again later.")
         else ret tt
     | None => ret tt
     end) ;;;
    (if truthy (auditEvent opts) then
       let identity := await (getUserIdentity c) in
       t <- date_now c ;;
       audit c info (default "" (auditEvent opts))
             [("function", JString handler_name);
              ("userId", js_opt (subject_of identity));
              ("timestamp", JIsoDate t)]
     else ret tt) ;;;
    try_catch (handler c args)
      (fun error =>
         let identity := await (getUserIdentity c) in
         audit c SecurityAuditLogger.error "function_execution_error"
               [("function", JString handler_name);
                ("error", JString (error_message error));
                ("userId", js_opt (subject_of identity));
                ("args", JStrings (typeof_args args))] ;;;
         throw error).

(** *** [secureCartoonifyImage] *)

Definition allowedStyles : list string :=
  ["simpsons"; "studio-ghibli"; "family-guy"; "disney"; "anime"; "comic-book"; "south-park"].

(** [xs.includes(s)] *)
Definition includes (xs : list string) (s : string) : bool :=
  existsb (String.eqb s) xs.

Definition is_processing (s : ImageStatus) : bool :=
  match s with processing => true | _ => false end.

Definition is_completed (s : ImageStatus) : bool :=
  match s with completed => true | _ => false end.

(** The payload of the generation job of an image. *)
Definition generation_job (i : image) (args : cartoonify_args) : job :=
  mkJob 0 (originalImageUrl i) (image_userId i) (style args).

(** The function given to [withSecurity]. *)
Definition cartoonify_handler (c : ctx) (args : cartoonify_args) : M response :=
  match await (getUserIdentity c) with
  | None => throw (ConvexError "Authentication required")
  | Some identity =>
      if negb (includes allowedStyles (style args)) then
        audit c warning "invalid_style_parameter"
              [("userId", JString (subject identity));
               ("style", JString (style args));
               ("userAgent", js_opt (userAgent args));
               ("ipAddress", js_opt (ipAddress args))] ;;;
        throw (ConvexError "Invalid cartoon style")
      else
        images <- db_query_by_storage (storageId args) ;;
        match images with
        | [] => throw (ConvexError "Image record not found")
        | image :: _ =>
            if negb (String.eqb (image_userId image) (subject identity)) then
              audit c warning "unauthorized_image_access"
                    [("userId", JString (subject identity));
                     ("imageId", JString (_id image));
                     ("imageOwner", JString (image_userId image));
                     ("userAgent", js_opt (userAgent args));
                     ("ipAddress", js_opt (ipAddress args))] ;;;
              throw (ConvexError "Unauthorized access to image")
            else if is_processing (status image) then
              ret (mkResponse true "processing")
            else if is_completed (status image) && truthy (cartoonImageUrl image) then
              ret (mkResponse true "completed")
            else
              t1 <- date_now c ;;
              db_patch (_id image) processing t1 ;;;
              t2 <- date_now c ;;
              audit c info "image_processing_started"
                    [("userId", JString (subject identity));
                     ("imageId", JString (_id image));
                     ("style", JString (style args));
                     ("userAgent", js_opt (userAgent args));
                     ("ipAddress", js_opt (ipAddress args));
                     ("timestamp", JIsoDate t2)] ;;;
              try_catch
                (scheduler_runAfter (generation_job image args) ;;;
                 ret (mkResponse true "processing"))
                (fun error =>
                   t3 <- date_now c ;;
                   db_patch (_id image) pending t3 ;;;
                   t4 <- date_now c ;;
                   audit c SecurityAuditLogger.error "image_processing_scheduling_failed"
                         [("userId", JString (subject identity));
                          ("imageId", JString (_id image));
                          ("error", JString (error_message error));
                          ("timestamp", JIsoDate t4)] ;;;
                   throw (ConvexError "Failed to schedule image generation"))
        end
  end.

(** The options of the mutation; [requireAuth] keeps its default. *)
Definition cartoonify_options : options :=
  mkOptions (Some processingRateLimiter) true (Some "image_processing_request").

(** The handler of the mutation.  The function given to [withSecurity] is
    an anonymous arrow function, so its [name] is the empty string; its one
    argument after [ctx] is the object of arguments. *)
Definition secureCartoonifyImage : ctx -> cartoonify_args -> M response :=
  withSecurity "" (fun _ => ["object"]) cartoonify_handler cartoonify_options.

(** The record that the mutation resolves for a storage reference:
    [images[0]]. *)
Definition resolve (s : string) (d : list image) : option image :=
  head (List.filter (fun i => String.eqb (originalStorageId i) s) d).

(** The status gate lets a record through to processing. *)
Definition gate_open (i : image) : bool :=
  negb (is_processing (status i))
  && negb (is_completed (status i) && truthy (cartoonImageUrl i)).

End Security.

(** ** Concrete inputs *)

Module Examples.

(** The processing limiter after three calls of one identifier at the
    instants 0, 1 and 2. *)
Definition three_calls : list (Z * string) := [(0, "u"); (1, "u"); (2, "u")].

Definition fresh_processing : RateLimiter.t := RateLimiter.new 300000 3.

Definition full_processing : RateLimiter.t :=
  snd (RateLimiter.run three_calls fresh_processing).

(** An operation that fails at every attempt; the world counts the attempts
    and the error carries the number of the attempt. *)
Definition always_fails (w : nat) : (unit + nat) * nat := (inr w, S w).

(** An operation that fails twice and then succeeds. *)
Definition third_time_lucky (w : nat) : (string + nat) * nat :=
  if (w <? 2)%nat then (inr w, S w) else (inl "done"%string, S w).

(** A wait that leaves the world as it is. *)
Definition no_change (ms : Z) (w : nat) : nat := w.

(** A call of [log] that names its user. *)
Definition bob_login : SecurityAuditLogger.call :=
  SecurityAuditLogger.mkCall 1 SecurityAuditLogger.info "login" [] (Some "bob"%string) None.

(** Four calls of [log], at the instants 1 to 4. *)
Definition audit_trail : list SecurityAuditLogger.call :=
  [bob_login;
   SecurityAuditLogger.mkCall 2 SecurityAuditLogger.warning "probe" []
                              (Some "bob"%string) None;
   SecurityAuditLogger.mkCall 3 SecurityAuditLogger.warning "probe" []
                              (Some "eve"%string) None;
   SecurityAuditLogger.mkCall 4 SecurityAuditLogger.error "crash" [] None None].

(** Two users, each with an uploaded photo that waits for processing. *)
Definition alice : Security.UserIdentity := Security.mkIdentity "alice".
Definition bob : Security.UserIdentity := Security.mkIdentity "bob".

Definition alice_photo : Security.image :=
  Security.mkImage "img1" "alice" "st1" (Some "https://files/o1"%string) None
                   Security.pending 10 10.

Definition bob_photo : Security.image :=
  Security.mkImage "img2" "bob" "st2" (Some "https://files/o2"%string) None
                   Security.pending 20 20.

(** A clock that advances by one millisecond at every reading. *)
Definition ticking (n : nat) : Z := 1000 + Z.of_nat n.

Definition alice_ctx : Security.ctx :=
  Security.mkCtx (Security.Promise (Some alice)) ticking.

Definition bob_ctx : Security.ctx :=
  Security.mkCtx (Security.Promise (Some bob)) ticking.

Definition start : Security.world := Security.initial_world [alice_photo; bob_photo].

(** The world a call leaves. *)
Definition after (c : Security.ctx) (args : Security.cartoonify_args)
    (w : Security.world) : Security.world :=
  snd (fst (Security.secureCartoonifyImage c args w)).

Definition anime (storage : string) : Security.cartoonify_args :=
  Security.mkArgs storage "anime" None None.

Definition pixar (storage : string) : Security.cartoonify_args :=
  Security.mkArgs storage "pixar" None None.

(** A photo of alice whose cartoon is ready. *)
Definition finished_photo : Security.image :=
  Security.mkImage "img3" "alice" "st3" (Some "https://files/o3"%string)
                   (Some "https://files/c3"%string) Security.completed 30 40.

Definition gallery : Security.world := Security.initial_world [finished_photo].

(** The world after alice has asked three times for her photo. *)
Definition after_three_by_alice : Security.world :=
  after alice_ctx (anime "st1") (after alice_ctx (anime "st1")
    (after alice_ctx (anime "st1") start)).

(** A photo of alice that the image generator is working on. *)
Definition processing_photo : Security.image :=
  Security.mkImage "img4" "alice" "st4" (Some "https://files/o4"%string) None
                   Security.processing 50 60.

Definition studio : Security.world := Security.initial_world [processing_photo].

(** The world after alice has asked three times for the photo that is being
    processed. *)
Definition after_three_polls : Security.world :=
  after alice_ctx (anime "st4") (after alice_ctx (anime "st4")
    (after alice_ctx (anime "st4") studio)).

End Examples.

(** ** The queries of convex/security.ts and histories of calls *)

Module SecurityQueries.

Import SecurityAuditLogger Security.
Local Open Scope mutation_scope.

(** What [getRateLimitStatus] reports for one limiter. *)
Record limit_status := mkLimitStatus { remaining : Z; resetTime : Z }.

(** The value [getRateLimitStatus] returns. *)
Record rate_limit_status := mkStatus {
  status_upload : limit_status;
  status_processing : limit_status;
  status_general : limit_status
}.

(** The handler of the query [getRateLimitStatus]: it is not wrapped in
    [withSecurity] and asks the three limiters about the caller's subject. *)
Definition getRateLimitStatus (c : ctx) : M rate_limit_status :=
  match await (getUserIdentity c) with
  | None => throw (ConvexError "Authentication required")
  | Some identity =>
      let userId := subject identity in
      upload_remaining <- limiter_getRemainingRequests c uploadRateLimiter userId ;;
      upload_reset <- limiter_getResetTime c uploadRateLimiter userId ;;
      processing_remaining <- limiter_getRemainingRequests c processingRateLimiter userId ;;
      processing_reset <- limiter_getResetTime c processingRateLimiter userId ;;
      general_remaining <- limiter_getRemainingRequests c generalRateLimiter userId ;;
      general_reset <- limiter_getResetTime c generalRateLimiter userId ;;
      ret (mkStatus (mkLimitStatus upload_remaining upload_reset)
                    (mkLimitStatus processing_remaining processing_reset)
                    (mkLimitStatus general_remaining general_reset))
  end.

(** The arguments of the query [getSecurityLogs]; [since] is a number of
    epoch milliseconds. *)
Record logs_args := mkLogsArgs {
  logs_level : option string;
  logs_userId : option string;
  logs_since : option Z
}.

(** An optional number as a value of [details]. *)
Definition js_opt_number (n : option Z) : jsval :=
  match n with
  | Some z => JNumber z
  | None => JUndefined
  end.

(** [args.since ? new Date(args.since) : undefined]: zero is falsy. *)
Definition since_date (since : option Z) : option Z :=
  match since with
  | Some z => if z =? 0 then None else Some z
  | None => None
  end.

(** The largest time value of a [Date]; beyond it [new Date(n)] is an
    invalid date, which no timestamp is [>=]. *)
Definition max_time_value : Z := 8640000000000000.

Definition valid_time (z : Z) : bool := Z.abs z <=? max_time_value.

(** The handler of the query [getSecurityLogs].  The object [filters: args]
    of the audit entry is recorded field by field.  With a [since] that is no
    valid date the last filter of [getLogs] keeps nothing. *)
Definition getSecurityLogs (c : ctx) (args : logs_args) : M (list entry) :=
  match await (getUserIdentity c) with
  | None => throw (ConvexError "Authentication required")
  | Some identity =>
      t <- date_now c ;;
      audit c info "security_logs_accessed"
            [("userId", JString (subject identity));
             ("filters.level", js_opt (logs_level args));
             ("filters.userId", js_opt (logs_userId args));
             ("filters.since", js_opt_number (logs_since args));
             ("timestamp", JIsoDate t)] ;;;
      fun w =>
        let filter := mkFilter (logs_level args) (logs_userId args)
                               (since_date (logs_since args)) in
        match since_date (logs_since args) with
        | Some z =>
            if valid_time z then
              (Return (getLogs (Some filter) (securityAuditLogger w)), w, [])
            else (Return [], w, [])
        | None => (Return (getLogs (Some filter) (securityAuditLogger w)), w, [])
        end
  end.

(** A history of calls of [secureCartoonifyImage], oldest first, and the
    world it leaves. *)
Fixpoint serve (calls : list (ctx * cartoonify_args)) (w : world) : world :=
  match calls with
  | [] => w
  | (c, args) :: rest => serve rest (snd (fst (secureCartoonifyImage c args w)))
  end.

(** What a call of the mutation does to the rate limiters of the module:
    the call of an authenticated caller is put to the processing limiter
    once, under the identifier of [withSecurity]; nothing else is touched. *)
Definition counted_once (c : ctx) (w w' : world) : Prop :=
  upload_limiter w' = upload_limiter w /\
  general_limiter w' = general_limiter w /\
  processing_limiter w' =
    match await (getUserIdentity c) with
    | None => processing_limiter w
    | Some _ =>
        snd (RateLimiter.isAllowed (clock c (reads w)) (rate_limit_identifier c)
                                   (processing_limiter w))
    end.

(** The fields of a record that no call of the mutation changes. *)
Definition fixed_fields (i : image)
    : string * string * string * option string * option string * Z :=
  (_id i, image_userId i, originalStorageId i, originalImageUrl i,
   cartoonImageUrl i, createdAt i).

End SecurityQueries.

(** ** String utilities of src/lib/security.ts *)

Module Sanitize.

Local Open Scope N_scope.

(** A JavaScript string is the list of its UTF-16 code units. *)
Definition of_string (s : string) : list N :=
  map Ascii.N_of_ascii (String.list_ascii_of_string s).

Definition is_lower (c : N) : bool := (97 <=? c) && (c <=? 122).
Definition is_upper (c : N) : bool := (65 <=? c) && (c <=? 90).
Definition is_digit (c : N) : bool := (48 <=? c) && (c <=? 57).

Definition underscore : N := 95.

Definition is_underscore (c : N) : bool := c =? underscore.

(** The class [[a-zA-Z0-9.-]]. *)
Definition is_name_char (c : N) : bool :=
  is_lower c || is_upper c || is_digit c || (c =? 46) || (c =? 45).

Definition starts_with (p : N -> bool) (s : list N) : bool :=
  match s with
  | c :: _ => p c
  | [] => false
  end.

(** [.replace(/[^a-zA-Z0-9.-]/g, '_')] *)
Definition replace_special (s : list N) : list N :=
  map (fun c => if is_name_char c then c else underscore) s.

(** [.replace(/_{2,}/g, '_')]: of every run of underscores one is left, so
    an underscore that another one follows is dropped. *)
Fixpoint collapse_underscores (s : list N) : list N :=
  match s with
  | [] => []
  | c :: rest =>
      if is_underscore c && starts_with is_underscore rest
      then collapse_underscores rest
      else c :: collapse_underscores rest
  end.

(** Removes the longest prefix of code units in a class: [^_+] and the
    front half of [trim()]. *)
Fixpoint drop_leading (p : N -> bool) (s : list N) : list N :=
  match s with
  | [] => []
  | c :: rest => if p c then drop_leading p rest else s
  end.

(** Removes the longest suffix of code units in a class: [_+$] and the back
    half of [trim()]. *)
Fixpoint drop_trailing (p : N -> bool) (s : list N) : list N :=
  match s with
  | [] => []
  | c :: rest =>
      match drop_trailing p rest with
      | [] => if p c then [] else [c]
      | kept => c :: kept
      end
  end.

(** [.replace(/^_+|_+$/g, '')] *)
Definition strip_underscores (s : list N) : list N :=
  drop_trailing is_underscore (drop_leading is_underscore s).

(** [sanitizeFileName(fileName)] *)
Definition sanitizeFileName (fileName : list N) : list N :=
  firstn 100 (strip_underscores (collapse_underscores (replace_special fileName))).

(** Whether two underscores stand next to each other. *)
Fixpoint has_double_underscore (s : list N) : bool :=
  match s with
  | [] => false
  | c :: rest =>
      (is_underscore c && starts_with is_underscore rest) || has_double_underscore rest
  end.

(** *** [sanitizeInput] *)

(** The class [[<>]]. *)
Definition is_angle (c : N) : bool := (c =? 60) || (c =? 62).

(** [.replace(/[<>]/g, '')] *)
Definition remove_angles (s : list N) : list N :=
  List.filter (fun c => negb (is_angle c)) s.

(** How the flag [i] compares code units when the pattern is ASCII: a
    lower-case ASCII letter counts as its upper-case letter, every other code
    unit as itself. *)
Definition canonicalize (c : N) : N := if is_lower c then c - 32 else c.

Fixpoint starts_with_ci (pattern s : list N) : bool :=
  match pattern, s with
  | [], _ => true
  | p :: pattern', c :: s' =>
      (canonicalize c =? canonicalize p) && starts_with_ci pattern' s'
  | _ :: _, [] => false
  end.

(** The length of the match of a literal pattern at the start of [s]. *)
Definition literal_match (pattern : string) (s : list N) : option nat :=
  if starts_with_ci (of_string pattern) s then Some (length (of_string pattern)) else None.

(** The class [\w]. *)
Definition is_word (c : N) : bool :=
  is_lower c || is_upper c || is_digit c || is_underscore c.

Fixpoint word_run (s : list N) : nat :=
  match s with
  | c :: rest => if is_word c then S (word_run rest) else 0%nat
  | [] => 0%nat
  end.

(** The length of the match of [/on\w+=/i] at the start of [s]: the greedy
    [\w+] takes the whole run of word characters, and [=] has to follow it. *)
Definition handler_match (s : list N) : option nat :=
  match s with
  | o :: n :: rest =>
      if (canonicalize o =? 79) && (canonicalize n =? 78) then
        match word_run rest with
        | O => None
        | S k =>
            match nth_error rest (S k) with
            | Some c => if c =? 61 then Some (2 + S k + 1)%nat else None
            | None => None
            end
        end
      else None
  | _ => None
  end.

(** [.replace(pattern, '')] with the flag [g]: the matches are found from
    left to right and do not overlap.  [skip] counts the code units of the
    current match that are still to be dropped. *)
Fixpoint remove_matches (match_at : list N -> option nat) (skip : nat) (s : list N)
    : list N :=
  match s with
  | [] => []
  | c :: rest =>
      match skip with
      | S k => remove_matches match_at k rest
      | O =>
          match match_at s with
          | Some (S k) => remove_matches match_at k rest
          | _ => c :: remove_matches match_at 0 rest
          end
      end
  end.

(** White space and line terminators, which [trim()] removes. *)
Definition is_space (c : N) : bool :=
  ((9 <=? c) && (c <=? 13)) || (c =? 32) || (c =? 160) || (c =? 5760)
  || ((8192 <=? c) && (c <=? 8202)) || (c =? 8232) || (c =? 8233)
  || (c =? 8239) || (c =? 8287) || (c =? 12288) || (c =? 65279).

(** [.trim()] *)
Definition trim (s : list N) : list N :=
  drop_trailing is_space (drop_leading is_space s).

(** [sanitizeInput(input)] *)
Definition sanitizeInput (input : list N) : list N :=
  firstn 1000
    (trim
       (remove_matches handler_match 0
          (remove_matches (literal_match "vbscript:") 0
             (remove_matches (literal_match "javascript:") 0
                (remove_angles input))))).

(** *** Comparison and tokens *)

(** [secureCompare(a, b)].  Code units are below [2 ^ 16], so the 32-bit
    operators [^] and [|=] act on them as on natural numbers. *)
Definition secureCompare (a b : list N) : bool :=
  if negb (length a =? length b)%nat then false
  else
    let result :=
      fold_left (fun result xy => N.lor result (N.lxor (fst xy) (snd xy)))
                (combine a b) 0 in
    result =? 0.

(** A digit of [toString(16)]. *)
Definition hex_digit (d : N) : N := if d <? 10 then 48 + d else 87 + d.

(** [byte.toString(16).padStart(2, '0')] *)
Definition to_hex (b : Byte.byte) : list N :=
  [hex_digit (Byte.to_N b / 16); hex_digit (Byte.to_N b mod 16)].

(** [Array.from(array, byte => ...).join('')] *)
Definition hex_string (bytes : list Byte.byte) : list N := flat_map to_hex bytes.

(** [generateCSRFToken()]; [random] is what [crypto.getRandomValues] wrote
    into the array of 32 bytes. *)
Definition generateCSRFToken (random : list Byte.byte) : list N := hex_string random.

(** [generateSecureRandomString(length)]; [random] is what
    [crypto.getRandomValues] wrote into the array of [length] bytes. *)
Definition generateSecureRandomString (random : list Byte.byte) : list N :=
  hex_string random.

(** [validateCSRFToken(token, storedToken)] *)
Definition validateCSRFToken (token storedToken : list N) : bool :=
  bool_decide (token = storedToken) && (length token =? 64)%nat.

End Sanitize.

(** ** The error handler (class [ErrorHandler]) *)

Module ErrorHandler.

Inductive ErrorType :=
| NETWORK | VALIDATION | AUTHENTICATION | AUTHORIZATION
| PROCESSING | UPLOAD | API | UNKNOWN.

(** The three shapes that [details] takes. *)
Inductive error_details :=
| GivenDetails (given : option string)
| StackAndContext (stack : option string) (context : option string)
| OriginalAndContext (originalError : string) (context : option string).

(** [AppError]; [handleError] never sets [userId]. *)
Record AppError := mkAppError {
  type : ErrorType;
  message : string;
  code : option string;
  details : error_details;
  timestamp : Z;
  userId : option string;
  retryable : bool
}.

(** An instance of [PaperbagError]. *)
Record PaperbagError := mkPaperbagError {
  pb_type : ErrorType;
  pb_message : string;
  pb_code : option string;
  pb_details : option string;
  pb_retryable : bool;
  pb_timestamp : Z
}.

(** The [unknown] value given to [handleError]. *)
Inductive thrown :=
| APaperbagError (e : PaperbagError)
| AnError (name message : string) (stack : option string)
| AnotherValue (v : string).

(** [haystack.includes(needle)] *)
Fixpoint includes (haystack needle : string) : bool :=
  String.prefix needle haystack ||
  match haystack with
  | EmptyString => false
  | String _ rest => includes rest needle
  end.

Section WithLowerCase.

(** [String.prototype.toLowerCase] *)
Variable toLowerCase : string -> string.

(** [categorizeError(error)] *)
Definition categorizeError (error_message : string) : ErrorType :=
  let message := toLowerCase error_message in
  if includes message "network" || includes message "fetch" || includes message "timeout"
  then NETWORK
  else if includes message "unauthorized" || includes message "authentication"
  then AUTHENTICATION
  else if includes message "forbidden" || includes message "permission"
  then AUTHORIZATION
  else if includes message "validation" || includes message "invalid"
  then VALIDATION
  else if includes message "upload" || includes message "file"
  then UPLOAD
  else if includes message "api" || includes message "openai"
  then API
  else if includes message "processing" || includes message "generation"
  then PROCESSING
  else UNKNOWN.

(** [isRetryableError(error)] *)
Definition isRetryableError (error_message : string) : bool :=
  let message := toLowerCase error_message in
  if includes message "network" || includes message "timeout" || includes message "connection"
  then true
  else if includes message "500" || includes message "502"
          || includes message "503" || includes message "504"
  then true
  else if includes message "rate limit" || includes message "429"
  then true
  else false.

(** [logError(error)]; what goes to the console is left out. *)
Definition logError (error : AppError) (errorLog : list AppError) : list AppError :=
  let pushed := errorLog ++ [error] in
  if (100 <? length pushed)%nat then SecurityAuditLogger.slice_last 100 pushed
  else pushed.

(** The [AppError] that [handleError] builds; [now] is the instant of
    [new Date()]. *)
Definition appError_of (now : Z) (error : thrown) (context : option string) : AppError :=
  match error with
  | APaperbagError e =>
      mkAppError (pb_type e) (pb_message e) (pb_code e) (GivenDetails (pb_details e))
                 (pb_timestamp e) None (pb_retryable e)
  | AnError name error_message stack =>
      mkAppError (categorizeError error_message) error_message (Some name)
                 (StackAndContext stack context) now None
                 (isRetryableError error_message)
  | AnotherValue v =>
      mkAppError UNKNOWN "An unknown error occurred" None
                 (OriginalAndContext v context) now None false
  end.

(** [handleError(error, context)]: the error it returns and the log it
    leaves. *)
Definition handleError (now : Z) (error : thrown) (context : option string)
    (errorLog : list AppError) : AppError * list AppError :=
  let appError := appError_of now error context in
  (appError, logError appError errorLog).

(** [getUserFriendlyMessage(error)] *)
Definition getUserFriendlyMessage (error : AppError) : string :=
  match type error with
  | NETWORK =>
      "Network connection issue. Please check your internet connection and try again."
  | AUTHENTICATION => "Please sign in to continue."
  | AUTHORIZATION => "You don't have permission to perform this action."
  | VALIDATION =>
      if String.eqb (message error) "" then "Please check your input and try again."
      else message error
  | UPLOAD => "Failed to upload image. Please try again with a different file."
  | API => "Service temporarily unavailable. Please try again in a few minutes."
  | PROCESSING => "Image processing failed. Please try again with a different image."
  | UNKNOWN => "Something went wrong. Please try again."
  end.

(** A sequence of calls of [handleError] on a handler, oldest first. *)
Definition handle_all (calls : list (Z * thrown * option string))
    (errorLog : list AppError) : list AppError :=
  fold_left (fun log call => snd (handleError (fst (fst call)) (snd (fst call)) (snd call) log))
            calls errorLog.

End WithLowerCase.

End ErrorHandler.

(** ** More concrete inputs *)

Module MoreExamples.

(** A caller that the identity provider does not know. *)
Definition stranger_ctx : Security.ctx :=
  Security.mkCtx (Security.Promise None) Examples.ticking.

(** A handler that counts nothing and returns its argument. *)
Definition echo (c : Security.ctx) (n : nat) : Security.M nat := Security.ret n.

(** A handler that always throws. *)
Definition refuse (c : Security.ctx) (n : nat) : Security.M nat :=
  Security.throw (Security.JsError "refused").

Definition typeof_number (n : nat) : list string := ["number"%string].

Definition general_options : Security.options :=
  Security.mkOptions (Some Security.generalRateLimiter) true (Some "echo"%string).

End MoreExamples.

(** * Properties *)

(** ** The rate limiter *)

Module RateLimiterFacts.

Import RateLimiter.

Lemma stored_set_requests_same rl identifier l :
  stored (set_requests (<[identifier := l]> (requests rl)) rl) identifier = l.
Proof. unfold stored, set_requests; simpl. by rewrite lookup_insert_eq. Qed.

Lemma stored_set_requests_other rl identifier other l :
  identifier ≠ other ->
  stored (set_requests (<[identifier := l]> (requests rl)) rl) other = stored rl other.
Proof. intros Hne. unfold stored, set_requests; simpl. by rewrite lookup_insert_ne. Qed.

(** The two outcomes of [isAllowed]. *)
Lemma isAllowed_cases now identifier rl :
  let valid := valid_at rl now (stored rl identifier) in
  (Z.of_nat (length valid) < maxRequests rl ->
   isAllowed now identifier rl =
     (true, set_requests (<[identifier := valid ++ [now]]> (requests rl)) rl)) /\
  (maxRequests rl <= Z.of_nat (length valid) ->
   isAllowed now identifier rl = (false, rl)).
Proof.
  intros valid; unfold isAllowed; fold valid.
  split; intros H.
  - destruct (Z.leb_spec (maxRequests rl) (Z.of_nat (length valid))); [lia | reflexivity].
  - destruct (Z.leb_spec (maxRequests rl) (Z.of_nat (length valid))); [reflexivity | lia].
Qed.

Lemma isAllowed_config now identifier rl :
  windowMs (snd (isAllowed now identifier rl)) = windowMs rl /\
  maxRequests (snd (isAllowed now identifier rl)) = maxRequests rl.
Proof. unfold isAllowed. by destruct (_ <=? _). Qed.

Lemma isAllowed_rejected_state now identifier rl :
  fst (isAllowed now identifier rl) = false -> snd (isAllowed now identifier rl) = rl.
Proof. unfold isAllowed. by destruct (_ <=? _). Qed.

Lemma isAllowed_stored_other now identifier other rl :
  identifier ≠ other ->
  stored (snd (isAllowed now identifier rl)) other = stored rl other.
Proof.
  intros Hne. unfold isAllowed. destruct (_ <=? _); simpl; [done |].
  by apply stored_set_requests_other.
Qed.

Lemma isAllowed_stored_allowed now identifier rl :
  fst (isAllowed now identifier rl) = true ->
  stored (snd (isAllowed now identifier rl)) identifier =
    valid_at rl now (stored rl identifier) ++ [now].
Proof.
  unfold isAllowed. destruct (_ <=? _); simpl; [done | intros _].
  apply stored_set_requests_same.
Qed.

(** Filtering by a weaker test keeps at least as many elements. *)
Lemma filter_length_mono {A} (p q : A -> bool) (l : list A) :
  (forall x, In x l -> p x = true -> q x = true) ->
  (length (List.filter p l) <= length (List.filter q l))%nat.
Proof.
  induction l as [| a l IH]; intros H; simpl; [lia |].
  assert (IH' := IH (fun x Hx => H x (or_intror Hx))).
  destruct (p a) eqn:Hp.
  - rewrite (H a (or_introl eq_refl) Hp). simpl. lia.
  - destruct (q a); simpl; lia.
Qed.

(** Pruning at [now] keeps every timestamp that is not older than [t0] when
    [now] is less than a window after [t0]. *)
Lemma valid_at_keeps_recent rl now t0 l :
  now - t0 < windowMs rl ->
  List.filter (fun x => t0 <=? x) (valid_at rl now l) = List.filter (fun x => t0 <=? x) l.
Proof.
  intros Hw. unfold valid_at. induction l as [| a l IH]; simpl; [done |].
  destruct (Z.ltb_spec (now - a) (windowMs rl)) as [Hin | Hout]; simpl.
  - by rewrite IH.
  - destruct (Z.leb_spec t0 a); [lia | done].
Qed.

(** Once a full window has passed since [T], pruning drops every timestamp
    that is not later than [T]. *)
Lemma valid_at_elapsed rl now T l :
  Forall (fun x => x <= T) l -> windowMs rl <= now - T -> valid_at rl now l = [].
Proof.
  intros Hl Hw. unfold valid_at. induction Hl as [| a l Ha _ IH]; simpl; [done |].
  destruct (Z.ltb_spec (now - a) (windowMs rl)); [lia | done].
Qed.

Lemma valid_at_bounded rl now T l :
  Forall (fun x => x <= T) l -> Forall (fun x => x <= T) (valid_at rl now l).
Proof.
  intros Hl. unfold valid_at. induction Hl as [| a l Ha _ IH]; simpl; [done |].
  destruct (_ <? _); [by constructor | done].
Qed.

(** The effect of a history of calls made between [t0] and [T], a span
    shorter than the window, on the record of one identifier: every allowed
    call of that identifier adds a timestamp, and nothing recorded since
    [t0] is pruned. *)
Lemma run_window identifier t0 T calls : forall rl,
  Forall (fun c => t0 <= fst c <= T) calls ->
  T - t0 < windowMs rl ->
  Forall (fun x => x <= T) (stored rl identifier) ->
  let out := fst (run calls rl) in
  let rl' := snd (run calls rl) in
  recent t0 (stored rl' identifier) =
    (recent t0 (stored rl identifier) + allowed_count identifier out)%nat /\
  Forall (fun x => x <= T) (stored rl' identifier) /\
  windowMs rl' = windowMs rl /\ maxRequests rl' = maxRequests rl.
Proof.
  induction calls as [| [now i] calls IH]; intros rl Hcalls Hspan Hold; simpl.
  - unfold allowed_count; simpl. repeat split; [lia | done].
  - inversion Hcalls as [| ? ? [Hlo Hhi] Hrest]; subst; simpl in *.
    destruct (isAllowed now i rl) as [b rl1] eqn:Hcall.
    destruct (isAllowed_config now i rl) as [Hw1 Hm1].
    rewrite Hcall in Hw1, Hm1; simpl in Hw1, Hm1.
    assert (Hstep :
      recent t0 (stored rl1 identifier) =
        (recent t0 (stored rl identifier)
         + (if (b && String.eqb i identifier)%bool then 1 else 0))%nat /\
      Forall (fun x => x <= T) (stored rl1 identifier)).
    { destruct (String.eqb_spec i identifier) as [-> | Hne].
      - destruct b.
        + pose proof (isAllowed_stored_allowed now identifier rl) as Hs.
          rewrite Hcall in Hs; simpl in Hs. rewrite Hs by done.
          unfold recent.
          rewrite List.filter_app, length_app, valid_at_keeps_recent by lia.
          simpl. destruct (Z.leb_spec t0 now); [| lia]. split; [done |].
          apply Forall_app. split; [by apply valid_at_bounded |].
          constructor; [lia | constructor].
        + pose proof (isAllowed_rejected_state now identifier rl) as Hs.
          rewrite Hcall in Hs; simpl in Hs. rewrite Hs by done.
          simpl. split; [lia | done].
      - pose proof (isAllowed_stored_other now i identifier rl Hne) as Hs.
        rewrite Hcall in Hs; simpl in Hs. rewrite Hs.
        rewrite andb_false_r. split; [lia | done]. }
    destruct Hstep as [Hcount Hbound].
    specialize (IH rl1 Hrest).
    rewrite Hw1 in IH. specialize (IH Hspan Hbound).
    destruct (run calls rl1) as [out rl2] eqn:Hrun; simpl in *.
    destruct IH as (IHc & IHb & IHw & IHm).
    repeat split; [| done | congruence | congruence].
    rewrite IHc, Hcount. unfold allowed_count; simpl.
    destruct (b && String.eqb i identifier)%bool; simpl; lia.
Qed.

(** From a fresh limiter, and with a clock that never shows more than [T],
    no stored timestamp is later than [T]. *)
Lemma run_fresh_bounded identifier T window limit calls :
  Forall (fun c => fst c <= T) calls ->
  Forall (fun x => x <= T) (stored (snd (run calls (new window limit))) identifier).
Proof.
  assert (Hgen : forall rl,
    Forall (fun c => fst c <= T) calls ->
    Forall (fun x => x <= T) (stored rl identifier) ->
    Forall (fun x => x <= T) (stored (snd (run calls rl)) identifier)).
  { induction calls as [| [now i] calls IH]; intros rl Hcalls Hold; simpl; [done |].
    inversion Hcalls as [| ? ? Hhi Hrest]; subst; simpl in *.
    destruct (isAllowed now i rl) as [b rl1] eqn:Hcall.
    specialize (IH rl1 Hrest).
    destruct (run calls rl1) as [out rl2] eqn:Hrun; simpl in *.
    apply IH.
    destruct (String.eqb_spec i identifier) as [-> | Hne].
    - destruct b.
      + pose proof (isAllowed_stored_allowed now identifier rl) as Hs.
        rewrite Hcall in Hs; simpl in Hs. rewrite Hs by done.
        apply Forall_app. split; [by apply valid_at_bounded |].
        constructor; [lia | constructor].
      + pose proof (isAllowed_rejected_state now identifier rl) as Hs.
        rewrite Hcall in Hs; simpl in Hs. by rewrite Hs.
    - pose proof (isAllowed_stored_other now i identifier rl Hne) as Hs.
      rewrite Hcall in Hs; simpl in Hs. by rewrite Hs. }
  intros Hcalls. apply Hgen; [done |].
  unfold stored, new; simpl. rewrite lookup_empty. constructor.
Qed.

(** C7.  [isAllowed] prunes the timestamps of the identifier that are a
    full window old, and then either records the current instant and answers
    [true] (fewer than [maxRequests] timestamps remain) or answers [false]
    and records nothing.  Consequently: let a history of calls, all made
    between [t0] and [T] with [T - t0] shorter than the window, contain
    exactly [maxRequests] allowed calls of the identifier; then a further
    call of the identifier less than a window after [t0] is answered
    [false], and a call made when a full window has passed since [T] is
    answered [true] again.  The limiter admits at least one request, and its
    record holds no timestamp later than [T], as is the case for every
    limiter that started fresh ([run_fresh_bounded]). *)
Theorem isAllowed_sliding_window (rl : t) (identifier : string) :
  (forall now,
     let valid := valid_at rl now (stored rl identifier) in
     (Z.of_nat (length valid) < maxRequests rl ->
      isAllowed now identifier rl =
        (true, set_requests (<[identifier := valid ++ [now]]> (requests rl)) rl)) /\
     (maxRequests rl <= Z.of_nat (length valid) ->
      isAllowed now identifier rl = (false, rl))) /\
  (forall calls t0 T,
     Forall (fun c => t0 <= fst c <= T) calls ->
     T - t0 < windowMs rl ->
     Forall (fun x => x <= T) (stored rl identifier) ->
     Z.of_nat (allowed_count identifier (fst (run calls rl))) = maxRequests rl ->
     0 < maxRequests rl ->
     let rl' := snd (run calls rl) in
     (forall now, now - t0 < windowMs rl ->
        isAllowed now identifier rl' = (false, rl')) /\
     (forall now, windowMs rl <= now - T ->
        isAllowed now identifier rl' =
          (true, set_requests (<[identifier := [now]]> (requests rl')) rl'))).
Proof.
  split; [intros now; apply isAllowed_cases |].
  intros calls t0 T Hcalls Hspan Hold Hcount Hpos rl'.
  destruct (run_window identifier t0 T calls rl Hcalls Hspan Hold)
    as (Hrecent & Hbound & Hw & Hm).
  fold rl' in Hrecent, Hbound, Hw, Hm.
  split; intros now Hnow.
  - apply (isAllowed_cases now identifier rl'). rewrite Hm, <- Hcount.
    apply inj_le.
    transitivity (recent t0 (stored rl' identifier)); [rewrite Hrecent; lia |].
    unfold recent, valid_at. apply filter_length_mono.
    intros x _ Hx. rewrite Hw.
    destruct (Z.leb_spec t0 x); [| done].
    destruct (Z.ltb_spec (now - x) (windowMs rl)); [done | lia].
  - pose proof (isAllowed_cases now identifier rl') as [Hallow _].
    rewrite (valid_at_elapsed rl' now T) in Hallow by (rewrite ?Hw; done).
    apply Hallow. simpl. lia.
Qed.

Lemma isAllowed_sliding_window_witness :
  isAllowed 3 "u" Examples.full_processing = (false, Examples.full_processing) /\
  isAllowed 300002 "u" Examples.full_processing =
    (true, set_requests (<["u" := [300002]]> (requests Examples.full_processing))
                        Examples.full_processing).
Proof.
  assert (Hcalls : Forall (fun c : Z * string => 0 <= fst c <= 2) Examples.three_calls).
  { repeat constructor; simpl; lia. }
  assert (Hold : Forall (fun x => x <= 2) (stored Examples.fresh_processing "u")).
  { vm_compute. constructor. }
  destruct (proj2 (isAllowed_sliding_window Examples.fresh_processing "u")
              Examples.three_calls 0 2 Hcalls ltac:(simpl; lia) Hold
              ltac:(vm_compute; reflexivity) ltac:(simpl; lia)) as [Hfull Hagain].
  split.
  - apply (Hfull 3). simpl. lia.
  - apply (Hagain 300002). simpl. lia.
Defined.

Lemma getRemainingRequests_state now identifier rl :
  snd (getRemainingRequests now identifier rl) = rl.
Proof. reflexivity. Qed.

Lemma getResetTime_state now identifier rl :
  snd (getResetTime now identifier rl) = rl.
Proof. unfold getResetTime. by destruct (valid_at _ _ _). Qed.

(** C10.  A call of [isAllowed] that answers [false] returns the limiter it
    was given, stored timestamps included: the pruned record is not written
    back.  [getRemainingRequests] and [getResetTime] return the limiter they
    were given.  Hence every later answer of the three operations, for any
    identifier and at any instant, is the same as if the rejected call or
    the query had not been made. *)
Theorem rejections_and_queries_keep_state (rl : t) (now : Z) (identifier : string) :
  (fst (isAllowed now identifier rl) = false ->
   snd (isAllowed now identifier rl) = rl /\
   forall now' other,
     isAllowed now' other (snd (isAllowed now identifier rl)) = isAllowed now' other rl /\
     getRemainingRequests now' other (snd (isAllowed now identifier rl)) =
       getRemainingRequests now' other rl /\
     getResetTime now' other (snd (isAllowed now identifier rl)) =
       getResetTime now' other rl) /\
  snd (getRemainingRequests now identifier rl) = rl /\
  snd (getResetTime now identifier rl) = rl /\
  (forall now' other,
     isAllowed now' other (snd (getRemainingRequests now identifier rl)) =
       isAllowed now' other rl /\
     getRemainingRequests now' other (snd (getRemainingRequests now identifier rl)) =
       getRemainingRequests now' other rl /\
     getResetTime now' other (snd (getRemainingRequests now identifier rl)) =
       getResetTime now' other rl /\
     isAllowed now' other (snd (getResetTime now identifier rl)) =
       isAllowed now' other rl /\
     getRemainingRequests now' other (snd (getResetTime now identifier rl)) =
       getRemainingRequests now' other rl /\
     getResetTime now' other (snd (getResetTime now identifier rl)) =
       getResetTime now' other rl).
Proof.
  pose proof (getRemainingRequests_state now identifier rl) as Hrem.
  pose proof (getResetTime_state now identifier rl) as Hreset.
  split; [| split; [done | split; [done |]]].
  - intros Hrej. rewrite (isAllowed_rejected_state _ _ _ Hrej). done.
  - intros now' other. rewrite Hrem, Hreset. done.
Qed.

Lemma rejections_and_queries_keep_state_witness :
  snd (isAllowed 3 "u" Examples.full_processing) = Examples.full_processing.
Proof.
  apply (proj1 (rejections_and_queries_keep_state Examples.full_processing 3 "u")).
  vm_compute. reflexivity.
Defined.

End RateLimiterFacts.

(** ** The audit logger *)

Module SecurityAuditLoggerFacts.

Import SecurityAuditLogger.

Lemma slice_last_short {A} (n : nat) (xs : list A) :
  (length xs <= n)%nat -> slice_last n xs = xs.
Proof.
  intros H. unfold slice_last. replace (length xs - n)%nat with 0%nat by lia. done.
Qed.

Lemma slice_last_length {A} (n : nat) (xs : list A) :
  (length (slice_last n xs) <= n)%nat.
Proof. unfold slice_last. rewrite length_skipn. lia. Qed.

(** Cutting to the last [n], appending, and cutting again is cutting once. *)
Lemma slice_last_app {A} (n : nat) (xs ys : list A) :
  slice_last n (slice_last n xs ++ ys) = slice_last n (xs ++ ys).
Proof.
  destruct (Nat.le_gt_cases (length xs) n) as [Hle | Hgt].
  - by rewrite (slice_last_short n xs).
  - unfold slice_last at 1 3. rewrite !length_app.
    assert (Hlen : length (slice_last n xs) = n).
    { unfold slice_last. rewrite length_skipn. lia. }
    rewrite Hlen.
    rewrite (List.skipn_app (length xs + length ys - n)).
    rewrite (List.skipn_app (n + length ys - n)).
    rewrite Hlen.
    replace (n + length ys - n - n)%nat with (length ys - n)%nat by lia.
    replace (length xs + length ys - n - length xs)%nat with (length ys - n)%nat by lia.
    f_equal. unfold slice_last. rewrite List.skipn_skipn. f_equal. lia.
Qed.

(** One call of [log] keeps the last 1000 of the entries it had plus the
    new one. *)
Lemma log_slice now lvl ev det uid addr lg :
  logs (log now lvl ev det uid addr lg) =
    slice_last 1000 (logs lg ++ [mkEntry now lvl ev det uid addr]).
Proof.
  unfold log. destruct (Nat.ltb_spec 1000 (length (logs lg ++ [mkEntry now lvl ev det uid addr]))).
  - done.
  - simpl. by rewrite slice_last_short.
Qed.

Lemma log_all_slice cs lg :
  (length (logs lg) <= 1000)%nat ->
  logs (log_all cs lg) = slice_last 1000 (logs lg ++ map entry_of cs).
Proof.
  revert lg. induction cs as [| c cs IH]; intros lg Hlg; simpl.
  - rewrite app_nil_r. by rewrite slice_last_short.
  - unfold log_all in *; simpl. rewrite IH.
    + unfold log_call. rewrite log_slice. fold (entry_of c).
      rewrite slice_last_app, <- app_assoc. done.
    + unfold log_call. rewrite log_slice. apply slice_last_length.
Qed.

Lemma filter_filter {A} (p q : A -> bool) (l : list A) :
  List.filter p (List.filter q l) = List.filter (fun x => q x && p x) l.
Proof.
  induction l as [| a l IH]; simpl; [done |].
  destruct (q a); simpl; [| done]. destruct (p a); by rewrite IH.
Qed.

Lemma filter_true {A} (l : list A) : List.filter (fun _ => true) l = l.
Proof. induction l as [| a l IH]; simpl; by rewrite ?IH. Qed.

(** [getLogs] with a filter keeps, in order, the entries that pass it. *)
Lemma getLogs_passes f lg :
  getLogs (Some f) lg = List.filter (passes f) (logs lg).
Proof.
  unfold getLogs, passes.
  destruct (truthy (filter_level f)), (truthy (filter_userId f)),
    (filter_since f) as [since |]; simpl;
    rewrite ?filter_filter;
    first [ symmetry; apply filter_true
          | apply List.filter_ext; intros x; simpl;
            rewrite ?andb_true_r, ?andb_assoc; reflexivity ].
Qed.

(** When an entry passes a filter: a level or a user that is given and is
    not the empty string must be the entry's, and the entry must not be
    older than [since]. *)
Lemma passes_matches f e :
  passes f e = true <->
  (forall s, filter_level f = Some s -> s <> ""%string ->
     match entry_level e with
     | info => s = "info"%string
     | warning => s = "warning"%string
     | error => s = "error"%string
     end) /\
  (forall u, filter_userId f = Some u -> u <> ""%string -> userId e = Some u) /\
  (forall since, filter_since f = Some since -> since <= timestamp e).
Proof.
  unfold passes, truthy, strict_eq.
  rewrite !andb_true_iff.
  assert (Hlevel :
    (negb match filter_level f with
          | Some x => negb (String.eqb x "")
          | None => false
          end
     || match filter_level f with
        | Some x => String.eqb x (level_name (entry_level e))
        | None => false
        end = true) <->
    (forall s, filter_level f = Some s -> s <> ""%string ->
       match entry_level e with
       | info => s = "info"%string
       | warning => s = "warning"%string
       | error => s = "error"%string
       end)).
  { destruct (filter_level f) as [x |]; simpl; [| split; [intros _ s; discriminate | done]].
    destruct (String.eqb_spec x "") as [-> | Hne]; simpl.
    - split; [| done]. intros _ s [= <-] Hs. done.
    - destruct (String.eqb_spec x (level_name (entry_level e))) as [-> | Hother].
      + split; [| done]. intros _ s [= <-] _. by destruct (entry_level e).
      + split; [done |]. intros H. exfalso. apply Hother.
        specialize (H x eq_refl Hne). by destruct (entry_level e); subst x. }
  assert (Huser :
    (negb match filter_userId f with
          | Some x => negb (String.eqb x "")
          | None => false
          end
     || match filter_userId f with
        | Some u => match userId e with
                    | Some x => String.eqb x u
                    | None => false
                    end
        | None => false
        end = true) <->
    (forall u, filter_userId f = Some u -> u <> ""%string -> userId e = Some u)).
  { destruct (filter_userId f) as [u |]; simpl; [| split; [intros _ s; discriminate | done]].
    destruct (String.eqb_spec u "") as [-> | Hne]; simpl.
    - split; [| done]. intros _ s [= <-] Hs. done.
    - destruct (userId e) as [x |].
      + destruct (String.eqb_spec x u) as [-> | Hother].
        * split; [| done]. by intros _ s [= <-] _.
        * split; [done |]. intros H. specialize (H u eq_refl Hne). congruence.
      + split; [done |]. intros H. specialize (H u eq_refl Hne). done. }
  assert (Hsince :
    (match filter_since f with
     | Some since => since <=? timestamp e
     | None => true
     end = true) <->
    (forall since, filter_since f = Some since -> since <= timestamp e)).
  { destruct (filter_since f) as [since |]; [| split; [intros _ s; discriminate | done]].
    rewrite Z.leb_le. split; [by intros H s [= <-] | intros H; by apply H]. }
  rewrite Hlevel, Huser, Hsince. tauto.
Qed.

(** C9, as amended.  After any sequence of [log] calls on a fresh logger,
    the stored log holds at most 1000 entries; it is the last 1000 of the
    entries logged, in the order they were logged, so the entries dropped
    are the oldest.  [getLogs] without a filter returns the stored log.
    With a filter it returns, in that same order, exactly the stored entries
    for which all of this holds: the level of the filter, if it is given and
    is not the empty string, is the level of the entry; the user of the
    filter, if it is given and is not the empty string, is the user of the
    entry; and the entry is not older than [since], if that is given.  A
    level or a user that is the empty string filters nothing. *)
Theorem audit_log_bounded_fifo (cs : list call) :
  let lg := log_all cs new in
  (length (logs lg) <= 1000)%nat /\
  logs lg = slice_last 1000 (map entry_of cs) /\
  (exists evicted, map entry_of cs = evicted ++ logs lg) /\
  getLogs None lg = logs lg /\
  (forall f (keep : entry -> bool),
     (forall e,
        keep e = true <->
        (forall s, filter_level f = Some s -> s <> ""%string ->
           match entry_level e with
           | info => s = "info"%string
           | warning => s = "warning"%string
           | error => s = "error"%string
           end) /\
        (forall u, filter_userId f = Some u -> u <> ""%string -> userId e = Some u) /\
        (forall since, filter_since f = Some since -> since <= timestamp e)) ->
     getLogs (Some f) lg = List.filter keep (logs lg)).
Proof.
  intros lg.
  assert (Hlogs : logs lg = slice_last 1000 (map entry_of cs)).
  { unfold lg. rewrite log_all_slice; simpl; [done | lia]. }
  split; [rewrite Hlogs; apply slice_last_length |].
  split; [done |].
  split.
  - exists (firstn (length (map entry_of cs) - 1000) (map entry_of cs)).
    rewrite Hlogs. unfold slice_last. symmetry. apply firstn_skipn.
  - split; [done |]. intros f keep Hkeep.
    rewrite getLogs_passes. apply List.filter_ext. intros e.
    pose proof (passes_matches f e) as Hpass. specialize (Hkeep e).
    destruct (passes f e), (keep e); try reflexivity.
    + exfalso. assert (false = true) by (apply Hkeep, Hpass; reflexivity). done.
    + exfalso. assert (false = true) by (apply Hpass, Hkeep; reflexivity). done.
Qed.

Lemma audit_log_bounded_fifo_witness :
  getLogs (Some (mkFilter (Some "warning"%string) (Some "bob"%string) (Some 2)))
          (log_all Examples.audit_trail new) =
    [mkEntry 2 warning "probe" [] (Some "bob"%string) None] /\
  getLogs (Some (mkFilter None None (Some 3))) (log_all Examples.audit_trail new) =
    [mkEntry 3 warning "probe" [] (Some "eve"%string) None;
     mkEntry 4 error "crash" [] None None].
Proof.
  destruct (audit_log_bounded_fifo Examples.audit_trail) as (_ & _ & _ & _ & Hfilter).
  rewrite (Hfilter (mkFilter (Some "warning"%string) (Some "bob"%string) (Some 2))
                   (passes (mkFilter (Some "warning"%string) (Some "bob"%string) (Some 2))))
    by (intros e; apply passes_matches).
  rewrite (Hfilter (mkFilter None None (Some 3)) (passes (mkFilter None None (Some 3))))
    by (intros e; apply passes_matches).
  split; vm_compute; reflexivity.
Defined.

(** C9 does not hold as stated: bob's login is in the log and is not an
    entry of the user with the empty name, yet a query for that user returns
    it; and a query for the level with the empty name returns it as well. *)
Lemma empty_filter_matches_everything :
  let lg := log_all [Examples.bob_login] new in
  logs lg = [mkEntry 1 info "login" [] (Some "bob"%string) None] /\
  getLogs (Some (mkFilter None (Some ""%string) None)) lg = logs lg /\
  getLogs (Some (mkFilter (Some ""%string) None None)) lg = logs lg /\
  getLogs (Some (mkFilter None (Some "alice"%string) None)) lg = [].
Proof. vm_compute. repeat split; reflexivity. Qed.

End SecurityAuditLoggerFacts.

(** ** Retry with backoff *)

Module RetryFacts.

Import Retry.

Section Facts.

Context {W T E : Type}.
Variable operation : W -> (T + E) * W.
Variable sleep : Z -> W -> W.
Variables maxRetries delay : Z.

(** The loop when the operation fails at every attempt up to the last one. *)
Lemma retry_loop_exhausted (k : nat) : forall fuel attempt lastError w,
  attempt + Z.of_nat k = maxRetries ->
  (k < fuel)%nat ->
  (forall j, (j <= k)%nat -> exists e, fst (operation (advance operation sleep delay j attempt w)) = inr e) ->
  exists e,
    fst (operation (advance operation sleep delay k attempt w)) = inr e /\
    retry_loop operation sleep maxRetries delay fuel attempt lastError w =
      Some (Rejected (Some e), snd (operation (advance operation sleep delay k attempt w)), backoff delay k attempt).
Proof.
  induction k as [| k IH]; intros fuel attempt lastError w Hlast Hfuel Hfail.
  - destruct (Hfail 0%nat (le_n _)) as [e He]. simpl in He.
    exists e. split; [done |].
    destruct fuel as [| fuel]; [lia |]. simpl.
    destruct (Z.leb_spec attempt maxRetries); [| lia].
    destruct (operation w) as [[v | e'] w1]; simpl in *; [done |].
    destruct (Z.eqb_spec attempt maxRetries); [| lia]. congruence.
  - destruct fuel as [| fuel]; [lia |].
    destruct (Hfail 0%nat ltac:(lia)) as [e0 He0]. simpl in He0.
    destruct (IH fuel (attempt + 1) (Some e0)
                (sleep (delay * 2 ^ attempt) (snd (operation w)))) as (e & He & Hrun).
    { lia. } { lia. }
    { intros j Hj. apply (Hfail (S j)). lia. }
    exists e. split; [exact He |].
    simpl. destruct (Z.leb_spec attempt maxRetries); [| lia].
    destruct (operation w) as [[v | e'] w1]; simpl in *; [done |].
    destruct (Z.eqb_spec attempt maxRetries); [lia |].
    injection He0 as ->. rewrite Hrun. done.
Qed.

(** The loop when the operation first succeeds at the [k]-th attempt from
    [attempt] on. *)
Lemma retry_loop_succeeds (k : nat) : forall fuel attempt lastError w v,
  attempt + Z.of_nat k <= maxRetries ->
  (k < fuel)%nat ->
  (forall j, (j < k)%nat -> exists e, fst (operation (advance operation sleep delay j attempt w)) = inr e) ->
  fst (operation (advance operation sleep delay k attempt w)) = inl v ->
  retry_loop operation sleep maxRetries delay fuel attempt lastError w =
    Some (Resolved v, snd (operation (advance operation sleep delay k attempt w)), backoff delay k attempt).
Proof.
  induction k as [| k IH]; intros fuel attempt lastError w v Hlast Hfuel Hfail Hok.
  - destruct fuel as [| fuel]; [lia |]. simpl in *.
    destruct (Z.leb_spec attempt maxRetries); [| lia].
    destruct (operation w) as [[v' | e'] w1]; simpl in *; [| done]. congruence.
  - destruct fuel as [| fuel]; [lia |].
    destruct (Hfail 0%nat ltac:(lia)) as [e0 He0]. simpl in He0.
    simpl. destruct (Z.leb_spec attempt maxRetries); [| lia].
    destruct (operation w) as [[v' | e'] w1] eqn:Hop; simpl in *; [done |].
    destruct (Z.eqb_spec attempt maxRetries); [lia |].
    rewrite (IH fuel (attempt + 1) (Some e') (sleep (delay * 2 ^ attempt) w1) v);
      [done | lia | lia | | by rewrite Hop in Hok].
    intros j Hj. specialize (Hfail (S j) ltac:(lia)). simpl in Hfail.
    by rewrite Hop in Hfail.
Qed.

Lemma backoff_invocations (k : nat) : forall attempt,
  invocations (backoff delay k attempt) = S k.
Proof.
  induction k as [| k IH]; intros attempt; [reflexivity |].
  unfold invocations in *. simpl. by rewrite IH.
Qed.

Lemma backoff_waits (k : nat) : forall attempt,
  waits (backoff delay k attempt) =
    map (fun j => delay * 2 ^ (attempt + Z.of_nat j)) (seq 0 k).
Proof.
  induction k as [| k IH]; intros attempt; [reflexivity |].
  simpl. rewrite IH, <- seq_shift, map_map. f_equal.
  - f_equal. f_equal. lia.
  - apply map_ext. intros j. f_equal. f_equal. lia.
Qed.

(** C8.  With [maxRetries >= 0]: when the operation fails at every attempt,
    [withRetry] invokes it [maxRetries + 1] times, waits
    [delay * 2 ^ attempt] after the failure of each attempt but the last,
    and rejects with the error of the last attempt; when the operation first
    succeeds at attempt [k <= maxRetries], [withRetry] resolves with that
    result after [k + 1] invocations and the [k] waits between them. *)
Theorem withRetry_attempts_and_backoff (w : W) :
  0 <= maxRetries ->
  ((forall k, (k <= Z.to_nat maxRetries)%nat ->
      exists e, fst (operation (advance operation sleep delay k 0 w)) = inr e) ->
   exists e,
     let last := advance operation sleep delay (Z.to_nat maxRetries) 0 w in
     let evs := backoff delay (Z.to_nat maxRetries) 0 in
     fst (operation last) = inr e /\
     withRetry operation sleep maxRetries delay w =
       Some (Rejected (Some e), snd (operation last), evs) /\
     Z.of_nat (invocations evs) = maxRetries + 1 /\
     waits evs = map (fun j => delay * 2 ^ Z.of_nat j) (seq 0 (Z.to_nat maxRetries))) /\
  (forall k v,
     (k <= Z.to_nat maxRetries)%nat ->
     (forall j, (j < k)%nat ->
        exists e, fst (operation (advance operation sleep delay j 0 w)) = inr e) ->
     fst (operation (advance operation sleep delay k 0 w)) = inl v ->
     let evs := backoff delay k 0 in
     withRetry operation sleep maxRetries delay w =
       Some (Resolved v, snd (operation (advance operation sleep delay k 0 w)), evs) /\
     invocations evs = S k /\
     waits evs = map (fun j => delay * 2 ^ Z.of_nat j) (seq 0 k)).
Proof.
  intros Hm. split.
  - intros Hfail.
    destruct (retry_loop_exhausted (Z.to_nat maxRetries) (Z.to_nat (maxRetries + 1))
                0 None w) as (e & He & Hrun); [lia | lia | done |].
    exists e. simpl. split; [done |]. split; [done |].
    rewrite backoff_invocations, backoff_waits. split; [lia |].
    apply map_ext. intros j. done.
  - intros k v Hk Hfail Hok. simpl. split; [| split].
    + apply retry_loop_succeeds; [lia | lia | done | done].
    + apply backoff_invocations.
    + rewrite backoff_waits. apply map_ext. intros j. done.
Qed.

End Facts.

Lemma withRetry_attempts_and_backoff_witness :
  withRetry Examples.always_fails Examples.no_change 3 1000 0%nat =
    Some (Rejected (Some 3%nat), 4%nat,
          [Invoke; Wait 1000; Invoke; Wait 2000; Invoke; Wait 4000; Invoke]) /\
  withRetry Examples.third_time_lucky Examples.no_change 3 1000 0%nat =
    Some (Resolved "done"%string, 3%nat,
          [Invoke; Wait 1000; Invoke; Wait 2000; Invoke]).
Proof.
  pose proof (withRetry_attempts_and_backoff Examples.always_fails Examples.no_change
                3 1000 0%nat ltac:(lia)) as [Hfail _].
  pose proof (withRetry_attempts_and_backoff Examples.third_time_lucky Examples.no_change
                3 1000 0%nat ltac:(lia)) as [_ Hok].
  split.
  - destruct Hfail as (e & He & Hrun & _).
    + intros k _. eexists. reflexivity.
    + simpl in He. injection He as <-. exact Hrun.
  - destruct (Hok 2%nat "done"%string) as (Hrun & _).
    + simpl. lia.
    + intros j Hj. destruct j as [| [| j]]; [eexists; reflexivity .. | lia].
    + reflexivity.
    + exact Hrun.
Defined.

End RetryFacts.

(** ** The secured mutation *)

Module SecurityFacts.

Import SecurityAuditLogger Security.
Import SecurityAuditLoggerFacts.

#[local] Arguments await : simpl never.
#[local] Arguments includes : simpl never.
#[local] Arguments RateLimiter.isAllowed : simpl never.
#[local] Arguments RateLimiter.getRemainingRequests : simpl never.
#[local] Arguments RateLimiter.getResetTime : simpl never.
#[local] Arguments SecurityAuditLogger.log : simpl never.
#[local] Arguments rate_limit_identifier : simpl never.
#[local] Arguments patch_db : simpl never.
#[local] Arguments generation_job : simpl never.

(** Unfolds the operations of the monad, so that [simpl] runs a mutation as
    far as the hypotheses determine it. *)
Ltac unfold_mutation :=
  unfold secureCartoonifyImage, withSecurity, cartoonify_handler, cartoonify_options;
  unfold scheduler_runAfter, internal_image_ImageGen;
  unfold bind, try_catch, ret, throw, audit, limiter_isAllowed,
    limiter_getRemainingRequests, limiter_getResetTime, db_query_by_storage,
    db_patch, date_now, bind.

(** The identifier of the rate limit does not depend on the caller. *)
Lemma rate_limit_identifier_anonymous (c : ctx) :
  rate_limit_identifier c = "anonymous"%string.
Proof. reflexivity. Qed.

Lemma In_slice_last_suffix {A} (n : nat) (x : A) (xs ys : list A) :
  In x ys -> (length ys <= n)%nat -> In x (slice_last n (xs ++ ys)).
Proof.
  intros Hin Hlen. unfold slice_last. rewrite List.skipn_app.
  apply in_or_app. right.
  rewrite length_app.
  replace (length xs + length ys - n - length xs)%nat with 0%nat by lia.
  exact Hin.
Qed.

(** Shows that an entry written by one of the last few calls of [log] is in
    the stored log. *)
Ltac entry_logged :=
  simpl; rewrite !log_slice, ?slice_last_app; simpl; rewrite <- ?app_assoc; simpl;
  apply In_slice_last_suffix; [simpl; tauto | simpl; lia].

(** What [images[0]] is after a patch. *)
Lemma resolve_patch_db (s id : string) (st : ImageStatus) (t : Z) (d : list image) :
  resolve s (patch_db id st t d) =
    (fun i => if String.eqb (_id i) id then patch_image st t i else i) <$> resolve s d.
Proof.
  unfold resolve, patch_db.
  induction d as [| a d IH]; simpl; [done |].
  destruct (String.eqb (_id a) id) eqn:Hid; simpl;
    destruct (String.eqb (originalStorageId a) s); simpl; rewrite ?Hid;
    first [reflexivity | exact IH].
Qed.

Lemma resolve_filter (s : string) (d : list image) (i : image) :
  resolve s d = Some i ->
  exists rest, List.filter (fun x => String.eqb (originalStorageId x) s) d = i :: rest.
Proof.
  unfold resolve. destruct (List.filter _ d) as [| x rest]; simpl; [done |].
  intros [= ->]. by exists rest.
Qed.

(** Every record with the patched id has the patched status. *)
Lemma patch_db_status (id : string) (st : ImageStatus) (t : Z) (d : list image) :
  Forall (fun i => _id i = id -> status i = st /\ updatedAt i = t) (patch_db id st t d).
Proof.
  unfold patch_db. apply List.Forall_forall. intros i Hin.
  apply in_map_iff in Hin as (j & <- & _).
  destruct (String.eqb_spec (_id j) id); simpl; [done | intros; done].
Qed.

#[local] Arguments is_processing : simpl never.
#[local] Arguments is_completed : simpl never.
#[local] Arguments truthy : simpl never.

(** Runs a mutation as far as the equations among the hypotheses allow. *)
Ltac run_mutation :=
  unfold_mutation;
  repeat (progress (simpl;
                    repeat match goal with
                           | H : ?l = _ |- context [?l] => rewrite H
                           end)).

(** C5, as amended.  For an authenticated caller whose call the processing
    rate limiter admits, a style outside the fixed set makes the mutation
    fail with "Invalid cartoon style"; a warning with the caller, the style,
    the user agent and the address is logged; the record store is neither
    queried nor changed and nothing is scheduled. *)
Theorem invalid_style_rejected_before_lookup c args w identity :
  await (getUserIdentity c) = Some identity ->
  fst (RateLimiter.isAllowed (clock c (reads w)) (rate_limit_identifier c)
                             (processing_limiter w)) = true ->
  includes allowedStyles (style args) = false ->
  exists w',
    secureCartoonifyImage c args w =
      (Throw (ConvexError "Invalid cartoon style"), w', []) /\
    db w' = db w /\
    scheduled w' = scheduled w /\
    In (mkEntry (clock c (3 + reads w)) warning "invalid_style_parameter"
                [("userId", JString (subject identity));
                 ("style", JString (style args));
                 ("userAgent", js_opt (userAgent args));
                 ("ipAddress", js_opt (ipAddress args))]
                None None)
       (logs (securityAuditLogger w')).
Proof.
  intros Hid Hlim Hstyle.
  destruct (RateLimiter.isAllowed _ _ _) as [b rl] eqn:Hrl. simpl in Hlim. subst b.
  eexists. split; [run_mutation; reflexivity |].
  split; [done |]. split; [done |]. entry_logged.
Qed.

(** C6, as amended.  For an authenticated caller whose call the processing
    rate limiter admits and whose style is valid: when the record resolved
    from the storage reference belongs to somebody else, the mutation fails
    with "Unauthorized access to image" and logs a warning that carries the
    caller and the owner; the record store is queried once and not changed,
    and nothing is scheduled. *)
Theorem foreign_record_unauthorized c args w identity image :
  await (getUserIdentity c) = Some identity ->
  fst (RateLimiter.isAllowed (clock c (reads w)) (rate_limit_identifier c)
                             (processing_limiter w)) = true ->
  includes allowedStyles (style args) = true ->
  resolve (storageId args) (db w) = Some image ->
  image_userId image <> subject identity ->
  exists w',
    secureCartoonifyImage c args w =
      (Throw (ConvexError "Unauthorized access to image"), w',
       [DbQuery (storageId args)]) /\
    db w' = db w /\
    scheduled w' = scheduled w /\
    In (mkEntry (clock c (3 + reads w)) warning "unauthorized_image_access"
                [("userId", JString (subject identity));
                 ("imageId", JString (_id image));
                 ("imageOwner", JString (image_userId image));
                 ("userAgent", js_opt (userAgent args));
                 ("ipAddress", js_opt (ipAddress args))]
                None None)
       (logs (securityAuditLogger w')).
Proof.
  intros Hid Hlim Hstyle Hres Hown.
  destruct (RateLimiter.isAllowed _ _ _) as [b rl] eqn:Hrl. simpl in Hlim. subst b.
  apply resolve_filter in Hres as [rest Hq].
  apply String.eqb_neq in Hown.
  eexists. split; [run_mutation; reflexivity |].
  split; [done |]. split; [done |]. entry_logged.
Qed.

(** C3, as amended.  For an authenticated owner whose call the processing
    rate limiter admits and whose style is valid: a record that is being
    processed gives [{success: true, status: "processing"}], and a completed
    record with a non-empty derived URL gives
    [{success: true, status: "completed"}]; in both cases the record store
    is queried once and left as it was ([updatedAt] included) and the queue
    of the scheduler is left as it was. *)
Theorem processing_and_completed_short_circuit c args w identity image :
  await (getUserIdentity c) = Some identity ->
  fst (RateLimiter.isAllowed (clock c (reads w)) (rate_limit_identifier c)
                             (processing_limiter w)) = true ->
  includes allowedStyles (style args) = true ->
  resolve (storageId args) (db w) = Some image ->
  image_userId image = subject identity ->
  (status image = processing ->
   exists w',
     secureCartoonifyImage c args w =
       (Return (mkResponse true "processing"), w', [DbQuery (storageId args)]) /\
     db w' = db w /\ scheduled w' = scheduled w) /\
  (status image = completed ->
   truthy (cartoonImageUrl image) = true ->
   exists w',
     secureCartoonifyImage c args w =
       (Return (mkResponse true "completed"), w', [DbQuery (storageId args)]) /\
     db w' = db w /\ scheduled w' = scheduled w).
Proof.
  intros Hid Hlim Hstyle Hres Hown.
  destruct (RateLimiter.isAllowed _ _ _) as [b rl] eqn:Hrl. simpl in Hlim. subst b.
  apply resolve_filter in Hres as [rest Hq].
  apply String.eqb_eq in Hown.
  split.
  - intros Hst.
    assert (Hp : is_processing (status image) = true) by (by rewrite Hst).
    eexists. split; [run_mutation; reflexivity | done].
  - intros Hst Hurl.
    assert (Hp : is_processing (status image) = false) by (by rewrite Hst).
    assert (Hc : is_completed (status image) = true) by (by rewrite Hst).
    eexists. split; [run_mutation; reflexivity | done].
Qed.

(** A call that the rate limiter rejects fails with the rate-limit error;
    it makes no call to the record store, and leaves the records, the queue
    and the limiter as they were. *)
Lemma rate_limited_call_changes_nothing c args w identity :
  await (getUserIdentity c) = Some identity ->
  fst (RateLimiter.isAllowed (clock c (reads w)) (rate_limit_identifier c)
                             (processing_limiter w)) = false ->
  exists w',
    secureCartoonifyImage c args w =
      (Throw (ConvexError "Rate limit exceeded. Please try again later."), w', []) /\
    db w' = db w /\
    scheduled w' = scheduled w /\
    processing_limiter w' = processing_limiter w.
Proof.
  intros Hid Hlim.
  pose proof (RateLimiterFacts.isAllowed_rejected_state _ _ _ Hlim) as Hsame.
  destruct (RateLimiter.isAllowed _ _ _) as [b rl] eqn:Hrl.
  simpl in Hlim, Hsame. subst b rl.
  pose proof (RateLimiterFacts.getResetTime_state
                (clock c (S (S (reads w)))) (rate_limit_identifier c)
                (processing_limiter w)) as Hreset.
  destruct (RateLimiter.getResetTime (clock c (S (S (reads w))))
              (rate_limit_identifier c) (processing_limiter w)) as [n rl] eqn:Hr.
  simpl in Hreset. subst rl.
  eexists. split; [run_mutation; reflexivity | done].
Qed.

(** The run of a call that gets as far as the enqueue: the record is patched
    to [processing], the argument of the enqueue throws, the record is
    patched back, and the mutation fails. *)
Lemma reverted_run c args w identity image :
  await (getUserIdentity c) = Some identity ->
  fst (RateLimiter.isAllowed (clock c (reads w)) (rate_limit_identifier c)
                             (processing_limiter w)) = true ->
  includes allowedStyles (style args) = true ->
  resolve (storageId args) (db w) = Some image ->
  image_userId image = subject identity ->
  gate_open image = true ->
  exists w',
    secureCartoonifyImage c args w =
      (Throw (ConvexError "Failed to schedule image generation"), w',
       [DbQuery (storageId args);
        DbPatch (_id image) processing (clock c (3 + reads w));
        DbPatch (_id image) pending (clock c (6 + reads w))]) /\
    db w' = patch_db (_id image) pending (clock c (6 + reads w))
              (patch_db (_id image) processing (clock c (3 + reads w)) (db w)) /\
    scheduled w' = scheduled w.
Proof.
  intros Hid Hlim Hstyle Hres Hown Hgate.
  destruct (RateLimiter.isAllowed _ _ _) as [b rl] eqn:Hrl. simpl in Hlim. subst b.
  apply resolve_filter in Hres as [rest Hq].
  apply String.eqb_eq in Hown.
  unfold gate_open in Hgate. apply andb_true_iff in Hgate as [Hp Hc].
  apply negb_true_iff in Hp, Hc.
  eexists. split; [run_mutation; reflexivity | done].
Qed.

(** The record that a storage reference resolves to after the two patches of
    a reverted run. *)
Lemma resolve_reverted s image t1 t3 d :
  resolve s d = Some image ->
  resolve s (patch_db (_id image) pending t3 (patch_db (_id image) processing t1 d)) =
    Some (patch_image pending t3 image).
Proof.
  intros Hres. rewrite !resolve_patch_db, Hres. simpl.
  rewrite String.eqb_refl. simpl. by rewrite String.eqb_refl.
Qed.

(** C1.  The request is never accepted.  For an authenticated owner with a
    valid style and a record that the status gate lets through, the mutation
    throws in every case: the rate-limit error when the limiter rejects the
    call, and otherwise "Failed to schedule image generation", because the
    argument [internal.image.ImageGen] of the enqueue throws before
    [runAfter] is entered.  Nothing is enqueued, and the record that the
    storage reference resolves to is not in [processing] afterwards. *)
Theorem accepted_request_never_starts_processing c args w identity image :
  await (getUserIdentity c) = Some identity ->
  includes allowedStyles (style args) = true ->
  resolve (storageId args) (db w) = Some image ->
  image_userId image = subject identity ->
  gate_open image = true ->
  exists e w' evs image',
    secureCartoonifyImage c args w = (Throw e, w', evs) /\
    e = (if fst (RateLimiter.isAllowed (clock c (reads w)) (rate_limit_identifier c)
                                       (processing_limiter w))
         then ConvexError "Failed to schedule image generation"
         else ConvexError "Rate limit exceeded. Please try again later.") /\
    scheduled w' = scheduled w /\
    resolve (storageId args) (db w') = Some image' /\
    status image' <> processing.
Proof.
  intros Hid Hstyle Hres Hown Hgate.
  destruct (fst (RateLimiter.isAllowed (clock c (reads w)) (rate_limit_identifier c)
                                       (processing_limiter w))) eqn:Hlim.
  - destruct (reverted_run c args w identity image) as (w' & Hrun & Hdb & Hq);
      [done .. |].
    eexists (ConvexError "Failed to schedule image generation"), w', _,
      (patch_image pending (clock c (6 + reads w)) image).
    split; [exact Hrun |]. split; [done |]. split; [done |].
    split; [rewrite Hdb; by apply resolve_reverted | done].
  - destruct (rate_limited_call_changes_nothing c args w identity)
      as (w' & Hrun & Hdb & Hq & _); [done .. |].
    eexists (ConvexError "Rate limit exceeded. Please try again later."), w', _, image.
    split; [exact Hrun |]. split; [done |]. split; [done |].
    split; [by rewrite Hdb |].
    unfold gate_open in Hgate. apply andb_true_iff in Hgate as [Hp _].
    intros Hst. rewrite Hst in Hp. done.
Qed.

(** Closes a goal whose hypothesis says that a run which stopped before the
    enqueue failed with the scheduling error. *)
Ltac not_a_scheduling_failure H :=
  exfalso; revert H; run_mutation;
  repeat match goal with
         | |- context [RateLimiter.getResetTime ?n ?i ?r] =>
             destruct (RateLimiter.getResetTime n i r); simpl
         | |- context [RateLimiter.getRemainingRequests ?n ?i ?r] =>
             destruct (RateLimiter.getRemainingRequests n i r); simpl
         end;
  simpl; discriminate.

(** C2.  The enqueue of line 235 is reached by the calls of an authenticated
    owner that the rate limiter admits, with a valid style and a record that
    the status gate lets through, and in each of them it throws.  Every such
    call fails with "Failed to schedule image generation"; the record it had
    patched to [processing] is patched back to [pending] with a fresh
    [updatedAt], so that no record with its id is left in [processing]; the
    queue of the scheduler is unchanged; and the audit log holds an error
    entry "image_processing_scheduling_failed" whose [error] is the message
    of what was thrown, "internal is not defined".  No other call fails with
    that error. *)
Theorem scheduling_failure_reverts_to_pending c args w :
  (forall identity image,
     await (getUserIdentity c) = Some identity ->
     fst (RateLimiter.isAllowed (clock c (reads w)) (rate_limit_identifier c)
                                (processing_limiter w)) = true ->
     includes allowedStyles (style args) = true ->
     resolve (storageId args) (db w) = Some image ->
     image_userId image = subject identity ->
     gate_open image = true ->
     exists w',
       let t1 := clock c (3 + reads w) in
       let t3 := clock c (6 + reads w) in
       secureCartoonifyImage c args w =
         (Throw (ConvexError "Failed to schedule image generation"), w',
          [DbQuery (storageId args);
           DbPatch (_id image) processing t1;
           DbPatch (_id image) pending t3]) /\
       db w' = patch_db (_id image) pending t3
                 (patch_db (_id image) processing t1 (db w)) /\
       resolve (storageId args) (db w') = Some (patch_image pending t3 image) /\
       Forall (fun i => _id i = _id image -> status i = pending /\ updatedAt i = t3)
              (db w') /\
       scheduled w' = scheduled w /\
       In (mkEntry (clock c (8 + reads w)) SecurityAuditLogger.error
                   "image_processing_scheduling_failed"
                   [("userId", JString (subject identity));
                    ("imageId", JString (_id image));
                    ("error", JString "internal is not defined");
                    ("timestamp", JIsoDate (clock c (7 + reads w)))]
                   None None)
          (logs (securityAuditLogger w'))) /\
  (fst (fst (secureCartoonifyImage c args w)) =
     Throw (ConvexError "Failed to schedule image generation") ->
   exists identity image,
     await (getUserIdentity c) = Some identity /\
     fst (RateLimiter.isAllowed (clock c (reads w)) (rate_limit_identifier c)
                                (processing_limiter w)) = true /\
     includes allowedStyles (style args) = true /\
     resolve (storageId args) (db w) = Some image /\
     image_userId image = subject identity /\
     gate_open image = true).
Proof.
  split.
  - intros identity image Hid Hlim Hstyle Hres Hown Hgate.
    destruct (reverted_run c args w identity image) as (w' & Hrun & Hdb & Hq);
      [done .. |].
    exists w'. simpl. split; [exact Hrun |]. split; [exact Hdb |].
    split; [rewrite Hdb; by apply resolve_reverted |].
    split; [rewrite Hdb; apply patch_db_status |].
    split; [exact Hq |].
    replace w' with (snd (fst (secureCartoonifyImage c args w))) by (by rewrite Hrun).
    clear Hrun Hdb Hq w'.
    destruct (RateLimiter.isAllowed _ _ _) as [b rl] eqn:Hrl. simpl in Hlim. subst b.
    apply resolve_filter in Hres as [rest Hq].
    apply String.eqb_eq in Hown.
    unfold gate_open in Hgate. apply andb_true_iff in Hgate as [Hp Hc].
    apply negb_true_iff in Hp, Hc.
    run_mutation. entry_logged.
  - intros Hfail.
    destruct (await (getUserIdentity c)) as [caller |] eqn:Hid;
      [| not_a_scheduling_failure Hfail].
    destruct (RateLimiter.isAllowed (clock c (reads w)) (rate_limit_identifier c)
                                    (processing_limiter w)) as [[|] rl] eqn:Hrl;
      [| not_a_scheduling_failure Hfail].
    destruct (includes allowedStyles (style args)) eqn:Hstyle;
      [| not_a_scheduling_failure Hfail].
    destruct (resolve (storageId args) (db w)) as [image |] eqn:Hres.
    2: { unfold resolve in Hres.
         destruct (List.filter _ (db w)) as [| x rest] eqn:Hq; [| done].
         not_a_scheduling_failure Hfail. }
    pose proof Hres as Hres'.
    apply resolve_filter in Hres as [rest Hq].
    destruct (String.eqb (image_userId image) (subject caller)) eqn:Hown;
      [| not_a_scheduling_failure Hfail].
    destruct (is_processing (status image)) eqn:Hp;
      [not_a_scheduling_failure Hfail |].
    destruct (is_completed (status image) && truthy (cartoonImageUrl image)) eqn:Hc.
    { apply andb_true_iff in Hc as [Hc Hurl]. not_a_scheduling_failure Hfail. }
    exists caller, image. apply String.eqb_eq in Hown.
    unfold gate_open. rewrite Hp, Hc. done.
Qed.

(** *** The claims on concrete inputs *)

Import Examples.

(** C4.  [withSecurity] counts every call of the mutation under the one
    identifier "anonymous", whoever the caller is: the identity is read off
    the promise that [getUserIdentity] returns, not off the value it settles
    to.  So after three requests of alice the first request of bob, who has
    no timestamp of his own, is rejected with the rate-limit error. *)
Theorem rate_limit_counts_all_callers_together :
  (forall c, rate_limit_identifier c = "anonymous"%string) /\
  await (getUserIdentity bob_ctx) = Some bob /\
  RateLimiter.stored (processing_limiter after_three_by_alice) "bob" = [] /\
  RateLimiter.stored (processing_limiter after_three_by_alice) "alice" = [] /\
  RateLimiter.stored (processing_limiter after_three_by_alice) "anonymous" =
    [1000; 1010; 1020] /\
  fst (secureCartoonifyImage bob_ctx (anime "st2") after_three_by_alice) =
    (Throw (ConvexError "Rate limit exceeded. Please try again later."),
     after bob_ctx (anime "st2") after_three_by_alice) /\
  snd (secureCartoonifyImage bob_ctx (anime "st2") after_three_by_alice) = [] /\
  db (after bob_ctx (anime "st2") after_three_by_alice) = db after_three_by_alice.
Proof.
  split; [intros c; reflexivity |].
  vm_compute. repeat split; reflexivity.
Qed.

Lemma accepted_request_never_starts_processing_witness :
  exists w' evs image',
    secureCartoonifyImage alice_ctx (anime "st1") start =
      (Throw (ConvexError "Failed to schedule image generation"), w', evs) /\
    scheduled w' = [] /\
    resolve "st1" (db w') = Some image' /\
    status image' <> processing.
Proof.
  destruct (accepted_request_never_starts_processing alice_ctx (anime "st1") start
              alice alice_photo)
    as (e & w' & evs & image' & Hrun & He & Hq & Hres & Hst);
    [reflexivity | reflexivity | reflexivity | reflexivity | reflexivity |].
  vm_compute in He. subst e.
  exists w', evs, image'.
  split; [exact Hrun |]. split; [exact Hq |]. split; [exact Hres | exact Hst].
Defined.

Lemma scheduling_failure_reverts_to_pending_witness :
  secureCartoonifyImage alice_ctx (anime "st1") start =
    (Throw (ConvexError "Failed to schedule image generation"),
     after alice_ctx (anime "st1") start,
     [DbQuery "st1"; DbPatch "img1" processing 1003; DbPatch "img1" pending 1006]) /\
  resolve "st1" (db (after alice_ctx (anime "st1") start)) =
    Some (patch_image pending 1006 alice_photo).
Proof.
  destruct (scheduling_failure_reverts_to_pending alice_ctx (anime "st1") start)
    as [Hfail _].
  destruct (Hfail alice alice_photo) as (w' & Hrun & Hdb & Hres & _);
    [reflexivity | vm_compute; reflexivity | reflexivity | reflexivity
    | reflexivity | reflexivity |].
  unfold after. rewrite Hrun. simpl. split; [reflexivity | exact Hres].
Defined.

(** C3 does not hold as stated: alice's photo is being processed and she
    asks for it with a valid style; three calls are answered, the fourth is
    rejected by the rate limiter. *)
Lemma short_circuit_can_be_rate_limited :
  await (getUserIdentity alice_ctx) = Some alice /\
  image_userId <$> resolve "st4" (db after_three_polls) = Some (subject alice) /\
  status <$> resolve "st4" (db after_three_polls) = Some processing /\
  includes allowedStyles (style (anime "st4")) = true /\
  fst (fst (secureCartoonifyImage alice_ctx (anime "st4") after_three_polls)) =
    Throw (ConvexError "Rate limit exceeded. Please try again later.").
Proof. vm_compute. repeat split; reflexivity. Qed.

Lemma processing_and_completed_short_circuit_witness :
  fst (fst (secureCartoonifyImage alice_ctx (anime "st4") studio)) =
    Return (mkResponse true "processing") /\
  fst (fst (secureCartoonifyImage alice_ctx (anime "st3") gallery)) =
    Return (mkResponse true "completed") /\
  db (after alice_ctx (anime "st3") gallery) = db gallery.
Proof.
  destruct (processing_and_completed_short_circuit alice_ctx (anime "st4")
              studio alice processing_photo) as [Hproc _];
    [reflexivity | vm_compute; reflexivity | reflexivity | reflexivity | reflexivity |].
  destruct (processing_and_completed_short_circuit alice_ctx (anime "st3")
              gallery alice finished_photo) as [_ Hdone];
    [reflexivity | vm_compute; reflexivity | reflexivity | reflexivity | reflexivity |].
  destruct (Hproc eq_refl) as (w1 & Hrun1 & _).
  destruct (Hdone eq_refl eq_refl) as (w2 & Hrun2 & Hdb2 & _).
  unfold after. rewrite Hrun1, Hrun2. simpl. done.
Defined.

(** C5 does not hold as stated: alice asks for a style outside the set, but
    the rate limiter is exhausted and the call fails with the rate-limit
    error. *)
Lemma invalid_style_can_be_rate_limited :
  await (getUserIdentity alice_ctx) = Some alice /\
  includes allowedStyles (style (pixar "st1")) = false /\
  fst (fst (secureCartoonifyImage alice_ctx (pixar "st1") after_three_by_alice)) =
    Throw (ConvexError "Rate limit exceeded. Please try again later.").
Proof. vm_compute. repeat split; reflexivity. Qed.

Lemma invalid_style_rejected_before_lookup_witness :
  secureCartoonifyImage alice_ctx (pixar "st1") start =
    (Throw (ConvexError "Invalid cartoon style"), after alice_ctx (pixar "st1") start, []).
Proof.
  destruct (invalid_style_rejected_before_lookup alice_ctx (pixar "st1") start alice)
    as (w' & Hrun & _); [reflexivity | vm_compute; reflexivity | reflexivity |].
  unfold after. rewrite Hrun. reflexivity.
Defined.

(** C6 does not hold as stated: bob asks for alice's photo with a style
    outside the set and the call fails with "Invalid cartoon style", before
    the record is looked up; and when the rate limiter is exhausted the call
    fails with the rate-limit error. *)
Lemma foreign_record_with_invalid_style :
  (await (getUserIdentity bob_ctx) = Some bob /\
   resolve "st1" (db start) = Some alice_photo /\
   image_userId alice_photo <> subject bob /\
   secureCartoonifyImage bob_ctx (pixar "st1") start =
     (Throw (ConvexError "Invalid cartoon style"), after bob_ctx (pixar "st1") start, [])) /\
  (image_userId <$> resolve "st1" (db after_three_by_alice) = Some "alice"%string /\
   fst (fst (secureCartoonifyImage bob_ctx (anime "st1") after_three_by_alice)) =
     Throw (ConvexError "Rate limit exceeded. Please try again later.")).
Proof.
  split; [| vm_compute; split; reflexivity].
  split; [reflexivity |]. split; [reflexivity |]. split; [discriminate |].
  vm_compute. reflexivity.
Qed.

Lemma foreign_record_unauthorized_witness :
  secureCartoonifyImage bob_ctx (anime "st1") start =
    (Throw (ConvexError "Unauthorized access to image"),
     after bob_ctx (anime "st1") start, [DbQuery "st1"]).
Proof.
  destruct (foreign_record_unauthorized bob_ctx (anime "st1") start bob alice_photo)
    as (w' & Hrun & _);
    [reflexivity | vm_compute; reflexivity | reflexivity | reflexivity | discriminate |].
  unfold after. rewrite Hrun. reflexivity.
Defined.

End SecurityFacts.

(** ** More on the rate limiter *)

Module RateLimiterMore.

Import RateLimiter RateLimiterFacts.

Lemma valid_at_length_le rl now l :
  (length (valid_at rl now l) <= length l)%nat.
Proof. unfold valid_at. apply List.filter_length_le. Qed.

(** One call keeps every record within the limit. *)
Lemma isAllowed_within_limit now identifier rl :
  (forall other, Z.of_nat (length (stored rl other)) <= Z.max 0 (maxRequests rl)) ->
  forall other,
    Z.of_nat (length (stored (snd (isAllowed now identifier rl)) other))
      <= Z.max 0 (maxRequests (snd (isAllowed now identifier rl))).
Proof.
  intros Hinv other.
  destruct (isAllowed_config now identifier rl) as [_ ->].
  destruct (fst (isAllowed now identifier rl)) eqn:Hb.
  - destruct (decide (identifier = other)) as [<- | Hne].
    + rewrite (isAllowed_stored_allowed _ _ _ Hb), length_app. simpl.
      revert Hb. unfold isAllowed.
      destruct (Z.leb_spec (maxRequests rl)
                  (Z.of_nat (length (valid_at rl now (stored rl identifier)))));
        simpl; [done | lia].
    + by rewrite (isAllowed_stored_other _ _ _ _ Hne).
  - by rewrite (isAllowed_rejected_state _ _ _ Hb).
Qed.

Lemma run_within_limit calls : forall rl,
  (forall other, Z.of_nat (length (stored rl other)) <= Z.max 0 (maxRequests rl)) ->
  forall other,
    Z.of_nat (length (stored (snd (run calls rl)) other))
      <= Z.max 0 (maxRequests (snd (run calls rl))).
Proof.
  induction calls as [| [now i] calls IH]; intros rl Hinv other; simpl; [done |].
  pose proof (isAllowed_within_limit now i rl Hinv) as Hstep.
  destruct (isAllowed now i rl) as [b rl1]; simpl in Hstep.
  specialize (IH rl1 Hstep other).
  by destruct (run calls rl1) as [out rl2].
Qed.

Lemma run_config calls : forall rl,
  windowMs (snd (run calls rl)) = windowMs rl /\
  maxRequests (snd (run calls rl)) = maxRequests rl.
Proof.
  induction calls as [| [now i] calls IH]; intros rl; simpl; [done |].
  destruct (isAllowed_config now i rl) as [Hw Hm].
  destruct (isAllowed now i rl) as [b rl1]; simpl in *.
  destruct (IH rl1) as [IHw IHm].
  destruct (run calls rl1) as [out rl2]; simpl in *. split; congruence.
Qed.

(** A limiter that started fresh keeps its configuration and every record
    within the limit. *)
Lemma fresh_within_limit (window limit : Z) (calls : list (Z * string)) (identifier : string) :
  let rl := snd (run calls (new window limit)) in
  Z.of_nat (length (stored rl identifier)) <= Z.max 0 limit /\
  windowMs rl = window /\ maxRequests rl = limit.
Proof.
  intros rl.
  pose proof (run_within_limit calls (new window limit)) as H.
  destruct (run_config calls (new window limit)) as [Hw Hm].
  fold rl in H, Hw, Hm. rewrite Hm in H. simpl in *.
  split; [| done]. apply H.
  intros other. unfold stored, new; simpl. rewrite lookup_empty. simpl. lia.
Qed.

(** X1.  Whatever calls a limiter has served since it was created, no
    identifier has more than [maxRequests] timestamps on record, so at no
    instant are more than [maxRequests] of them within the window. *)
Theorem recorded_requests_never_exceed_limit
    (window limit : Z) (calls : list (Z * string)) (identifier : string) (now : Z) :
  let rl := snd (run calls (new window limit)) in
  Z.of_nat (length (stored rl identifier)) <= Z.max 0 limit /\
  Z.of_nat (length (valid_at rl now (stored rl identifier))) <= Z.max 0 limit.
Proof.
  intros rl.
  destruct (fresh_within_limit window limit calls identifier) as [Hall _].
  fold rl in Hall. split; [done |].
  pose proof (valid_at_length_le rl now (stored rl identifier)). lia.
Qed.

(** X2.  At one instant [isAllowed] admits an identifier exactly when
    [getRemainingRequests] reports a positive number for it. *)
Theorem allowed_iff_requests_remain (rl : t) (now : Z) (identifier : string) :
  fst (isAllowed now identifier rl) = true <->
  0 < fst (getRemainingRequests now identifier rl).
Proof.
  unfold isAllowed, getRemainingRequests; simpl.
  destruct (Z.leb_spec (maxRequests rl)
              (Z.of_nat (length (valid_at rl now (stored rl identifier))))); simpl.
  - split; [done | lia].
  - split; [lia | done].
Qed.

(** X3.  For a limiter with [maxRequests >= 0] that has served any calls
    since it was created, the remaining requests and the requests within the
    window add up to [maxRequests]. *)
Theorem remaining_plus_used_is_limit
    (window limit : Z) (calls : list (Z * string)) (identifier : string) (now : Z) :
  0 <= limit ->
  let rl := snd (run calls (new window limit)) in
  fst (getRemainingRequests now identifier rl)
    + Z.of_nat (length (valid_at rl now (stored rl identifier))) = limit.
Proof.
  intros Hlimit rl.
  destruct (fresh_within_limit window limit calls identifier) as (Hall & _ & Hm).
  fold rl in Hall, Hm.
  pose proof (valid_at_length_le rl now (stored rl identifier)).
  unfold getRemainingRequests; simpl. rewrite Hm. lia.
Qed.

Lemma remaining_plus_used_is_limit_witness :
  fst (getRemainingRequests 3 "u" Examples.full_processing)
    + Z.of_nat (length (valid_at Examples.full_processing 3
                          (stored Examples.full_processing "u"))) = 3.
Proof.
  apply (remaining_plus_used_is_limit 300000 3 Examples.three_calls "u" 3). lia.
Defined.

Lemma valid_at_idempotent rl now l :
  valid_at rl now (valid_at rl now l) = valid_at rl now l.
Proof.
  unfold valid_at. induction l as [| a l IH]; simpl; [done |].
  destruct (now - a <? windowMs rl) eqn:Ha; simpl; rewrite ?Ha, IH; done.
Qed.

(** X4.  With a positive window, a call that is admitted lowers the number
    of remaining requests of its identifier, read at the same instant, by
    exactly one. *)
Theorem admitted_call_uses_one_request (rl : t) (now : Z) (identifier : string) :
  0 < windowMs rl ->
  fst (isAllowed now identifier rl) = true ->
  fst (getRemainingRequests now identifier (snd (isAllowed now identifier rl))) =
    fst (getRemainingRequests now identifier rl) - 1.
Proof.
  intros Hw Hb.
  pose proof (isAllowed_stored_allowed _ _ _ Hb) as Hst.
  destruct (isAllowed_config now identifier rl) as [Hw' Hm'].
  unfold getRemainingRequests; simpl. rewrite Hst, Hm'.
  assert (Hv : valid_at (snd (isAllowed now identifier rl)) now
                 (valid_at rl now (stored rl identifier) ++ [now]) =
               valid_at rl now (stored rl identifier) ++ [now]).
  { unfold valid_at. rewrite Hw', List.filter_app.
    fold (valid_at rl now (stored rl identifier)).
    fold (valid_at rl now (valid_at rl now (stored rl identifier))).
    rewrite valid_at_idempotent. simpl.
    destruct (Z.ltb_spec (now - now) (windowMs rl)); [done | lia]. }
  rewrite Hv, length_app. simpl.
  revert Hb. unfold isAllowed.
  destruct (Z.leb_spec (maxRequests rl)
              (Z.of_nat (length (valid_at rl now (stored rl identifier)))));
    simpl; [done | lia].
Qed.

Lemma admitted_call_uses_one_request_witness :
  fst (getRemainingRequests 5 "u"
         (snd (isAllowed 5 "u" Examples.fresh_processing))) = 3 - 1.
Proof.
  apply (admitted_call_uses_one_request Examples.fresh_processing 5 "u").
  - simpl. lia.
  - vm_compute. reflexivity.
Defined.

Lemma math_min_in (x : Z) (xs : list Z) : In (math_min x xs) (x :: xs).
Proof.
  unfold math_min. revert x. induction xs as [| y xs IH]; intros x; simpl; [tauto |].
  destruct (IH (Z.min x y)) as [H | H].
  - destruct (Z.min_spec x y) as [[_ Hmin] | [_ Hmin]].
    + left. rewrite <- H. lia.
    + right. left. rewrite <- H. lia.
  - right. right. exact H.
Qed.

Lemma valid_at_in rl now l x :
  In x (valid_at rl now l) -> In x l /\ now - x < windowMs rl.
Proof.
  unfold valid_at. rewrite filter_In. intros [Hin Hx]. split; [done | lia].
Qed.

Lemma filter_drops_one {A} (p : A -> bool) (l : list A) (x : A) :
  In x l -> p x = false -> (length (List.filter p l) < length l)%nat.
Proof.
  induction l as [| a l IH]; simpl; [done |].
  intros [-> | Hin] Hp.
  - rewrite Hp. pose proof (List.filter_length_le p l). lia.
  - specialize (IH Hin Hp). destruct (p a); simpl; lia.
Qed.

(** X5.  [getResetTime] never lies in the past, and it is the present only
    when no request of the identifier is within the window.  For a limiter
    that admits at least one request and has served any calls since it was
    created: an identifier that is rejected now is admitted at the reset time
    reported now. *)
Theorem reset_time_is_when_a_retry_succeeds
    (window limit : Z) (calls : list (Z * string)) (identifier : string) (now : Z) :
  let rl := snd (run calls (new window limit)) in
  now <= fst (getResetTime now identifier rl) /\
  (fst (getResetTime now identifier rl) = now <->
   valid_at rl now (stored rl identifier) = []) /\
  (0 < limit ->
   fst (isAllowed now identifier rl) = false ->
   fst (isAllowed (fst (getResetTime now identifier rl)) identifier rl) = true).
Proof.
  intros rl.
  destruct (fresh_within_limit window limit calls identifier) as (Hall & Hw & Hm).
  fold rl in Hall, Hw, Hm.
  unfold getResetTime.
  destruct (valid_at rl now (stored rl identifier)) as [| x xs] eqn:Hvalid; simpl.
  - split; [lia |]. split; [done |].
    intros Hlimit _. unfold isAllowed. rewrite Hvalid, Hm. simpl.
    destruct (_ <=? _) eqn:E; [apply Z.leb_le in E; simpl in E; lia | reflexivity].
  - pose proof (math_min_in x xs) as Hmin. rewrite <- Hvalid in Hmin.
    apply valid_at_in in Hmin as [Hin Hrecent].
    split; [lia |]. split; [split; [lia | done] |].
    intros Hlimit _. unfold isAllowed.
    assert (Hless : (length (valid_at rl (math_min x xs + windowMs rl)
                               (stored rl identifier))
                     < length (stored rl identifier))%nat).
    { unfold valid_at. apply (filter_drops_one _ _ (math_min x xs)); [done |].
      apply Z.ltb_ge. lia. }
    rewrite Hm.
    destruct (Z.leb_spec limit
                (Z.of_nat (length (valid_at rl (math_min x xs + windowMs rl)
                                      (stored rl identifier))))); [lia | done].
Qed.

Lemma reset_time_is_when_a_retry_succeeds_witness :
  fst (getResetTime 3 "u" Examples.full_processing) = 300000 /\
  fst (isAllowed 300000 "u" Examples.full_processing) = true.
Proof.
  destruct (reset_time_is_when_a_retry_succeeds 300000 3 Examples.three_calls "u" 3)
    as (_ & _ & Hretry).
  split; [reflexivity |].
  apply Hretry; [lia | vm_compute; reflexivity].
Defined.

(** X6.  A call for one identifier leaves the record of every other
    identifier as it was, and with it the answers that the three operations
    give for that other identifier at any instant. *)
Theorem identifiers_do_not_interfere
    (rl : t) (now : Z) (identifier other : string) (later : Z) :
  identifier <> other ->
  let rl' := snd (isAllowed now identifier rl) in
  stored rl' other = stored rl other /\
  fst (isAllowed later other rl') = fst (isAllowed later other rl) /\
  fst (getRemainingRequests later other rl') = fst (getRemainingRequests later other rl) /\
  fst (getResetTime later other rl') = fst (getResetTime later other rl).
Proof.
  intros Hne rl'.
  pose proof (isAllowed_stored_other now identifier other rl Hne) as Hst.
  destruct (isAllowed_config now identifier rl) as [Hw Hm].
  fold rl' in Hst, Hw, Hm.
  split; [done |].
  unfold isAllowed, getRemainingRequests, getResetTime, valid_at.
  rewrite Hst, Hw, Hm.
  split; [by destruct (_ <=? _) |]. split; [done |].
  by destruct (List.filter _ _).
Qed.

Lemma identifiers_do_not_interfere_witness :
  fst (isAllowed 3 "v" (snd (isAllowed 2 "u" Examples.fresh_processing))) =
    fst (isAllowed 3 "v" Examples.fresh_processing).
Proof.
  apply (identifiers_do_not_interfere Examples.fresh_processing 2 "u" "v" 3).
  discriminate.
Defined.

End RateLimiterMore.

(** ** More on retrying *)

Module RetryMore.

Import Retry RetryFacts.

Section Facts.

Context {W T E : Type}.
Variable operation : W -> (T + E) * W.
Variable sleep : Z -> W -> W.
Variables maxRetries delay : Z.

(** X7.  With a negative [maxRetries] the loop body never runs: the
    operation is not invoked at all, nothing is waited for, and the promise
    rejects with [undefined]. *)
Theorem negative_maxRetries_never_invokes (w : W) :
  maxRetries < 0 ->
  withRetry operation sleep maxRetries delay w = Some (Rejected None, w, []).
Proof.
  intros Hneg. unfold withRetry.
  destruct (Z.to_nat (maxRetries + 1)); simpl;
    destruct (Z.leb_spec 0 maxRetries); (lia || reflexivity).
Qed.

(** The shape of a trace of [k] failed attempts and one more: [2 * k + 1]
    events, an invocation at every even position, and at the odd position
    after invocation [j] the wait of that attempt. *)
Lemma backoff_length (k : nat) : forall attempt,
  length (backoff delay k attempt) = (2 * k + 1)%nat.
Proof.
  induction k as [| k IH]; intros attempt; simpl; [done |]. rewrite IH. lia.
Qed.

Lemma backoff_invoke (k : nat) : forall attempt j,
  (j <= k)%nat -> nth_error (backoff delay k attempt) (2 * j) = Some Invoke.
Proof.
  induction k as [| k IH]; intros attempt j Hj.
  - by replace j with 0%nat by lia.
  - destruct j as [| j]; [done |].
    replace (2 * S j)%nat with (S (S (2 * j))) by lia. simpl.
    apply IH. lia.
Qed.

Lemma backoff_nth (k : nat) : forall attempt j,
  (j < k)%nat ->
  nth_error (backoff delay k attempt) (2 * j) = Some Invoke /\
  nth_error (backoff delay k attempt) (2 * j + 1) =
    Some (Wait (delay * 2 ^ (attempt + Z.of_nat j))).
Proof.
  induction k as [| k IH]; intros attempt j Hj; [lia |].
  destruct j as [| j].
  - replace (attempt + Z.of_nat 0) with attempt by lia. done.
  - replace (2 * S j)%nat with (S (S (2 * j))) by lia.
    replace (attempt + Z.of_nat (S j)) with (attempt + 1 + Z.of_nat j) by lia.
    destruct (IH (attempt + 1) j ltac:(lia)) as [Hi Hw].
    split; [exact Hi | exact Hw].
Qed.

(** The loop ends within its fuel, and it invokes the operation at most once
    for every value that [attempt] can still take. *)
Lemma retry_loop_bounded (fuel : nat) : forall attempt lastError w,
  (Z.to_nat (maxRetries + 1 - attempt) <= fuel)%nat ->
  exists r w' evs,
    retry_loop operation sleep maxRetries delay fuel attempt lastError w = Some (r, w', evs) /\
    (invocations evs <= Z.to_nat (maxRetries + 1 - attempt))%nat /\
    length (waits evs) = pred (invocations evs) /\
    (attempt <= maxRetries -> (1 <= invocations evs)%nat).
Proof.
  induction fuel as [| fuel IH]; intros attempt lastError w Hfuel.
  - exists (Rejected lastError), w, []. simpl.
    destruct (Z.leb_spec attempt maxRetries); [lia |].
    repeat split; [unfold invocations; simpl; lia | lia].
  - simpl. destruct (Z.leb_spec attempt maxRetries) as [Hle | Hgt].
    + destruct (operation w) as [[v | e] w1].
      * exists (Resolved v), w1, [Invoke].
        repeat split; unfold invocations; simpl; lia.
      * destruct (Z.eqb_spec attempt maxRetries) as [Heq | Hne].
        -- exists (Rejected (Some e)), w1, [Invoke].
           repeat split; unfold invocations; simpl; lia.
        -- destruct (IH (attempt + 1) (Some e) (sleep (delay * 2 ^ attempt) w1))
             as (r & w2 & evs & Hrun & Hinv & Hwaits & Hone); [lia |].
           rewrite Hrun. exists r, w2, (Invoke :: Wait (delay * 2 ^ attempt) :: evs).
           specialize (Hone ltac:(lia)).
           unfold invocations in *. simpl. repeat split; lia.
    + exists (Rejected lastError), w, [].
      repeat split; [unfold invocations; simpl; lia | lia].
Qed.

(** Either the operation succeeds for the first time at one of the next
    [n + 1] attempts, or it fails at all of them. *)
Lemma first_success_or_all_fail (n : nat) : forall attempt w,
  (exists k v,
     (k <= n)%nat /\
     (forall j, (j < k)%nat ->
        exists e, fst (operation (advance operation sleep delay j attempt w)) = inr e) /\
     fst (operation (advance operation sleep delay k attempt w)) = inl v) \/
  (forall k, (k <= n)%nat ->
     exists e, fst (operation (advance operation sleep delay k attempt w)) = inr e).
Proof.
  induction n as [| n IH]; intros attempt w.
  - destruct (operation w) as [[v | e] w1] eqn:Hop.
    + left. exists 0%nat, v. split; [lia |]. split; [intros j; lia |].
      simpl. by rewrite Hop.
    + right. intros k Hk. replace k with 0%nat by lia. simpl. rewrite Hop. by exists e.
  - destruct (operation w) as [[v | e] w1] eqn:Hop.
    + left. exists 0%nat, v. split; [lia |]. split; [intros j; lia |].
      simpl. by rewrite Hop.
    + destruct (IH (attempt + 1) (sleep (delay * 2 ^ attempt) w1))
        as [(k & v & Hk & Hfail & Hok) | Hall].
      * left. exists (S k), v. split; [lia |]. split.
        -- intros [| j] Hj; simpl; rewrite Hop; simpl; [by exists e | apply Hfail; lia].
        -- simpl. rewrite Hop. exact Hok.
      * right. intros [| k] Hk; simpl; rewrite Hop; simpl; [by exists e | apply Hall; lia].
Qed.

(** X9.  For an operation each of whose invocations settles, [withRetry]
    settles, whatever the outcomes are.  With a negative [maxRetries] it
    does nothing.  Otherwise there is an attempt [k <= maxRetries] at which
    it stops: the attempts before [k] failed, the events are the [k + 1]
    invocations with the wait [delay * 2 ^ j] between invocation [j] and
    invocation [j + 1] and no other wait, and the promise resolves with the
    result of attempt [k], or rejects with its error, which happens only at
    [k = maxRetries].  So the operation is invoked at most [maxRetries + 1]
    times, and at least once when [maxRetries >= 0]. *)
Theorem withRetry_settles_within_bound (w : W) :
  exists r w' evs,
    withRetry operation sleep maxRetries delay w = Some (r, w', evs) /\
    Z.of_nat (invocations evs) <= Z.max 0 (maxRetries + 1) /\
    length (waits evs) = pred (invocations evs) /\
    (0 <= maxRetries -> (1 <= invocations evs)%nat) /\
    ((maxRetries < 0 /\ r = Rejected None /\ w' = w /\ evs = []) \/
     (exists k,
        Z.of_nat k <= maxRetries /\
        (forall j, (j < k)%nat ->
           exists e, fst (operation (advance operation sleep delay j 0 w)) = inr e) /\
        w' = snd (operation (advance operation sleep delay k 0 w)) /\
        evs = backoff delay k 0 /\
        nth_error evs (2 * k) = Some Invoke /\
        (forall j, (j < k)%nat ->
           nth_error evs (2 * j) = Some Invoke /\
           nth_error evs (2 * j + 1) = Some (Wait (delay * 2 ^ Z.of_nat j))) /\
        length evs = (2 * k + 1)%nat /\
        ((exists v, fst (operation (advance operation sleep delay k 0 w)) = inl v /\
                    r = Resolved v) \/
         (exists e, fst (operation (advance operation sleep delay k 0 w)) = inr e /\
                    r = Rejected (Some e) /\ Z.of_nat k = maxRetries)))).
Proof.
  destruct (retry_loop_bounded (Z.to_nat (maxRetries + 1)) 0 None w)
    as (r & w' & evs & Hrun & Hinv & Hwaits & Hone).
  { replace (maxRetries + 1 - 0) with (maxRetries + 1) by lia. lia. }
  exists r, w', evs.
  split; [done |]. split; [lia |]. split; [done |].
  split; [intros Hm; apply Hone; lia |].
  destruct (Z.ltb_spec maxRetries 0) as [Hneg | Hpos].
  - left. split; [done |].
    unfold withRetry in Hrun.
    destruct (Z.to_nat (maxRetries + 1)); simpl in Hrun;
      destruct (Z.leb_spec 0 maxRetries); try lia; by injection Hrun as <- <- <-.
  - right.
    destruct (first_success_or_all_fail (Z.to_nat maxRetries) 0 w)
      as [(k & v & Hk & Hfail & Hok) | Hall].
    + exists k.
      pose proof (retry_loop_succeeds operation sleep maxRetries delay k
                    (Z.to_nat (maxRetries + 1)) 0 None w v
                    ltac:(lia) ltac:(lia) Hfail Hok) as Hrun'.
      unfold withRetry in Hrun. rewrite Hrun' in Hrun. injection Hrun as <- <- <-.
      split; [lia |]. split; [done |]. split; [done |]. split; [done |].
      split; [apply backoff_invoke; lia |].
      split; [intros j Hj; replace (delay * 2 ^ Z.of_nat j)
                             with (delay * 2 ^ (0 + Z.of_nat j)) by (f_equal; f_equal; lia);
              by apply backoff_nth |].
      split; [apply backoff_length |].
      left. by exists v.
    + exists (Z.to_nat maxRetries).
      destruct (retry_loop_exhausted operation sleep maxRetries delay
                  (Z.to_nat maxRetries) (Z.to_nat (maxRetries + 1)) 0 None w)
        as (e & He & Hrun'); [lia | lia | done |].
      unfold withRetry in Hrun. rewrite Hrun' in Hrun. injection Hrun as <- <- <-.
      split; [lia |].
      split; [intros j Hj; apply Hall; lia |]. split; [done |]. split; [done |].
      split; [apply backoff_invoke; lia |].
      split; [intros j Hj; replace (delay * 2 ^ Z.of_nat j)
                             with (delay * 2 ^ (0 + Z.of_nat j)) by (f_equal; f_equal; lia);
              by apply backoff_nth |].
      split; [apply backoff_length |].
      right. exists e. split; [done |]. split; [done | lia].
Qed.

Lemma geometric_sum (k : nat) :
  fold_right Z.add 0 (map (fun j => delay * 2 ^ (0 + Z.of_nat j)) (seq 0 k)) =
    delay * (2 ^ Z.of_nat k - 1).
Proof.
  induction k as [| k IH].
  - simpl. lia.
  - rewrite seq_S, map_app, fold_right_app. simpl.
    assert (Hshift : forall (l : list Z) (a : Z),
              fold_right Z.add a l = fold_right Z.add 0 l + a).
    { induction l as [| x l IHl]; intros a; simpl; [lia | rewrite IHl; lia]. }
    rewrite Hshift, IH.
    replace (0 + Z.of_nat k) with (Z.of_nat k) by lia.
    replace (Z.of_nat (S k)) with (Z.of_nat k + 1) by lia.
    rewrite Z.pow_add_r by lia. change (2 ^ 1) with 2. ring.
Qed.

(** X8.  With [maxRetries >= 0], when the operation fails at every attempt,
    the waits that [withRetry] makes before it gives up add up to
    [delay * (2 ^ maxRetries - 1)]. *)
Theorem exhausted_retries_total_wait (w : W) :
  0 <= maxRetries ->
  (forall k, (k <= Z.to_nat maxRetries)%nat ->
     exists e, fst (operation (advance operation sleep delay k 0 w)) = inr e) ->
  exists r w' evs,
    withRetry operation sleep maxRetries delay w = Some (r, w', evs) /\
    fold_right Z.add 0 (waits evs) = delay * (2 ^ maxRetries - 1).
Proof.
  intros Hm Hfail.
  destruct (retry_loop_exhausted operation sleep maxRetries delay
              (Z.to_nat maxRetries) (Z.to_nat (maxRetries + 1)) 0 None w)
    as (e & He & Hrun); [lia | lia | done |].
  eexists _, _, _. split; [exact Hrun |].
  rewrite backoff_waits, geometric_sum. f_equal. f_equal. f_equal. lia.
Qed.

End Facts.

Lemma negative_maxRetries_never_invokes_witness :
  withRetry Examples.always_fails Examples.no_change (-1) 1000 0%nat =
    Some (Rejected None, 0%nat, []).
Proof.
  apply (negative_maxRetries_never_invokes Examples.always_fails Examples.no_change
           (-1) 1000 0%nat).
  lia.
Defined.

Lemma exhausted_retries_total_wait_witness :
  exists r w' evs,
    withRetry Examples.always_fails Examples.no_change 3 1000 0%nat = Some (r, w', evs) /\
    fold_right Z.add 0 (waits evs) = 1000 * (2 ^ 3 - 1).
Proof.
  apply (exhausted_retries_total_wait Examples.always_fails Examples.no_change
           3 1000 0%nat).
  - lia.
  - intros k _. eexists. reflexivity.
Defined.

End RetryMore.

(** ** More on the secured mutation and the queries *)

Module SecurityMore.

Import SecurityAuditLogger Security SecurityQueries.
Import SecurityAuditLoggerFacts SecurityFacts.

#[local] Arguments await : simpl never.
#[local] Arguments includes : simpl never.
#[local] Arguments RateLimiter.isAllowed : simpl never.
#[local] Arguments RateLimiter.getRemainingRequests : simpl never.
#[local] Arguments RateLimiter.getResetTime : simpl never.
#[local] Arguments SecurityAuditLogger.log : simpl never.
#[local] Arguments SecurityAuditLogger.getLogs : simpl never.
#[local] Arguments rate_limit_identifier : simpl never.
#[local] Arguments patch_db : simpl never.
#[local] Arguments generation_job : simpl never.
#[local] Arguments is_processing : simpl never.
#[local] Arguments is_completed : simpl never.
#[local] Arguments truthy : simpl never.

(** The three ways a call of the mutation can go, by what it does to the
    record store and to the scheduler. *)
Lemma call_outcomes c args w :
  let r := fst (fst (secureCartoonifyImage c args w)) in
  let w' := snd (fst (secureCartoonifyImage c args w)) in
  let evs := snd (secureCartoonifyImage c args w) in
  counted_once c w w' /\
  ((evs = [] /\ db w' = db w /\ scheduled w' = scheduled w /\ exists e, r = Throw e) \/
   (evs = [DbQuery (storageId args)] /\ db w' = db w /\ scheduled w' = scheduled w) \/
   (exists image t1 t3,
      resolve (storageId args) (db w) = Some image /\
      evs = [DbQuery (storageId args); DbPatch (_id image) processing t1;
             DbPatch (_id image) pending t3] /\
      db w' = patch_db (_id image) pending t3
                (patch_db (_id image) processing t1 (db w)) /\
      scheduled w' = scheduled w /\
      r = Throw (ConvexError "Failed to schedule image generation"))).
Proof.
  unfold counted_once.
  destruct (await (getUserIdentity c)) as [caller |] eqn:Hid.
  2: { split; [run_mutation; done |]. left. run_mutation. eauto 6. }
  destruct (RateLimiter.isAllowed (clock c (reads w)) (rate_limit_identifier c)
                                  (processing_limiter w)) as [[|] rl] eqn:Hrl.
  2: { pose proof (RateLimiterFacts.isAllowed_rejected_state
                     (clock c (reads w)) (rate_limit_identifier c)
                     (processing_limiter w)) as Hsame.
       rewrite Hrl in Hsame. simpl in Hsame. specialize (Hsame eq_refl). subst rl.
       pose proof (RateLimiterFacts.getResetTime_state
                     (clock c (S (S (reads w)))) (rate_limit_identifier c)
                     (processing_limiter w)) as Hreset.
       destruct (RateLimiter.getResetTime (clock c (S (S (reads w))))
                   (rate_limit_identifier c) (processing_limiter w))
         as [n rl] eqn:Hr.
       simpl in Hreset. subst rl.
       split; [run_mutation; done |]. left. run_mutation. eauto 6. }
  destruct (includes allowedStyles (style args)) eqn:Hstyle.
  2: { split; [run_mutation; done |]. left. run_mutation. eauto 6. }
  destruct (resolve (storageId args) (db w)) as [image |] eqn:Hres.
  2: { unfold resolve in Hres.
       destruct (List.filter _ (db w)) as [| x rest] eqn:Hq; [| done].
       split; [run_mutation; done |]. right. left. run_mutation. done. }
  pose proof Hres as Hres'.
  apply resolve_filter in Hres as [rest Hq].
  destruct (String.eqb (image_userId image) (subject caller)) eqn:Hown.
  2: { split; [run_mutation; done |]. right. left. run_mutation. done. }
  destruct (is_processing (status image)) eqn:Hp.
  { split; [run_mutation; done |]. right. left. run_mutation. done. }
  destruct (is_completed (status image) && truthy (cartoonImageUrl image)) eqn:Hc.
  { apply andb_true_iff in Hc as [Hc Hurl].
    split; [run_mutation; done |]. right. left. run_mutation. done. }
  split; [run_mutation; done |].
  right. right.
  exists image, (clock c (3 + reads w)), (clock c (6 + reads w)).
  split; [done |]. run_mutation. done.
Qed.

Lemma patch_db_twice id st1 t1 st2 t2 d :
  patch_db id st2 t2 (patch_db id st1 t1 d) = patch_db id st2 t2 d.
Proof.
  unfold patch_db. rewrite map_map. apply map_ext. intros i.
  destruct (String.eqb (_id i) id) eqn:Hi; simpl; by rewrite Hi.
Qed.

Lemma patch_db_frame id st t d :
  Forall2 (fun i i' => fixed_fields i' = fixed_fields i /\ (i' = i \/ _id i = id))
          d (patch_db id st t d).
Proof.
  unfold patch_db. induction d as [| i d IH]; simpl; constructor; [| done].
  destruct (String.eqb_spec (_id i) id); [split; [done | by right] | split; [done | by left]].
Qed.

Lemma unchanged_db_frame (P : image -> Prop) (d : list image) :
  Forall2 (fun i i' => fixed_fields i' = fixed_fields i /\ (i' = i \/ P i)) d d.
Proof. induction d; constructor; [split; [done | by left] | done]. Qed.

(** X10.  No call of the mutation adds or removes a record, and none changes
    a record's id, owner, storage reference, URLs or creation time; a record
    that differs afterwards at all has the id of the record that the storage
    reference resolves to. *)
Theorem mutation_only_patches_the_resolved_record c args w :
  Forall2 (fun i i' =>
             fixed_fields i' = fixed_fields i /\
             (i' = i \/ Some (_id i) = _id <$> resolve (storageId args) (db w)))
          (db w) (db (snd (fst (secureCartoonifyImage c args w)))).
Proof.
  destruct (call_outcomes c args w) as [_ Hcase]. simpl in Hcase.
  destruct Hcase as [(_ & Hdb & _) | [(_ & Hdb & _) | Hfail]].
  - rewrite Hdb. apply unchanged_db_frame.
  - rewrite Hdb. apply unchanged_db_frame.
  - destruct Hfail as (image & t1 & t3 & Hres & _ & Hdb & _).
    rewrite Hdb, patch_db_twice, Hres. simpl.
    eapply Forall2_impl; [apply patch_db_frame |].
    intros i i' [Hfix [-> | Hi]]; (split; [done |]); [by left | right; by rewrite Hi].
Qed.


(** X12.  A call of the mutation never touches the upload and general
    limiters nor, in the processing limiter, the record of any identifier
    other than "anonymous"; and every call of an authenticated caller that
    the limiter admits is recorded there with the instant of the check,
    whatever the call then does. *)
Theorem mutation_counts_every_admitted_call c args w :
  let w' := snd (fst (secureCartoonifyImage c args w)) in
  upload_limiter w' = upload_limiter w /\
  general_limiter w' = general_limiter w /\
  (forall identifier, identifier <> "anonymous"%string ->
     RateLimiter.stored (processing_limiter w') identifier =
       RateLimiter.stored (processing_limiter w) identifier) /\
  (forall identity,
     await (getUserIdentity c) = Some identity ->
     fst (RateLimiter.isAllowed (clock c (reads w)) "anonymous"
                                (processing_limiter w)) = true ->
     RateLimiter.stored (processing_limiter w') "anonymous" =
       RateLimiter.valid_at (processing_limiter w) (clock c (reads w))
         (RateLimiter.stored (processing_limiter w) "anonymous")
       ++ [clock c (reads w)]).
Proof.
  destruct (call_outcomes c args w) as [(Hup & Hgen & Hproc) _]. simpl in *.
  rewrite rate_limit_identifier_anonymous in Hproc.
  split; [done |]. split; [done |]. split.
  - intros identifier Hne. rewrite Hproc.
    destruct (await (getUserIdentity c)); [| done].
    apply RateLimiterFacts.isAllowed_stored_other. congruence.
  - intros identity Hid Hadmit. rewrite Hproc, Hid.
    by apply RateLimiterFacts.isAllowed_stored_allowed.
Qed.

Lemma mutation_counts_every_admitted_call_witness :
  RateLimiter.stored
    (processing_limiter (Examples.after Examples.alice_ctx (Examples.pixar "st1")
                           Examples.start)) "anonymous" = [1000].
Proof.
  destruct (mutation_counts_every_admitted_call Examples.alice_ctx (Examples.pixar "st1")
              Examples.start) as (_ & _ & _ & Hcount).
  apply (Hcount Examples.alice); [reflexivity | vm_compute; reflexivity].
Defined.

(** X13.  For an authenticated caller whose call the processing rate limiter
    admits and whose style is valid: when no record has the given storage
    reference, the mutation fails with "Image record not found" after one
    query of the record store, and changes neither the records nor the
    queue. *)
Theorem missing_record_not_found c args w identity :
  await (getUserIdentity c) = Some identity ->
  fst (RateLimiter.isAllowed (clock c (reads w)) (rate_limit_identifier c)
                             (processing_limiter w)) = true ->
  includes allowedStyles (style args) = true ->
  resolve (storageId args) (db w) = None ->
  exists w',
    secureCartoonifyImage c args w =
      (Throw (ConvexError "Image record not found"), w', [DbQuery (storageId args)]) /\
    db w' = db w /\
    scheduled w' = scheduled w.
Proof.
  intros Hid Hlim Hstyle Hres.
  destruct (RateLimiter.isAllowed _ _ _) as [b rl] eqn:Hrl. simpl in Hlim. subst b.
  unfold resolve in Hres.
  destruct (List.filter _ (db w)) as [| x rest] eqn:Hq; [| done].
  eexists. split; [run_mutation; reflexivity | done].
Qed.

Lemma missing_record_not_found_witness :
  fst (fst (secureCartoonifyImage Examples.alice_ctx (Examples.anime "nowhere")
              Examples.start)) =
    Throw (ConvexError "Image record not found").
Proof.
  destruct (missing_record_not_found Examples.alice_ctx (Examples.anime "nowhere")
              Examples.start Examples.alice) as (w' & Hrun & _);
    [reflexivity | vm_compute; reflexivity | reflexivity | reflexivity |].
  by rewrite Hrun.
Defined.

(** *** [withSecurity] around any handler *)

Section AnyHandler.

Context {A R : Type}.
Variable handler_name : string.
Variable typeof_args : A -> list string.
Variable opts : options.

(** X14.  When authentication is required and the caller has no identity,
    [withSecurity] throws "Authentication required" whatever the handler is:
    the handler is not run, no rate limiter is consulted, the record store
    and the queue are untouched, and one warning is logged. *)
Theorem unauthenticated_call_stops_at_the_door
    (handler other_handler : ctx -> A -> M R) c args w :
  requireAuth opts = true ->
  await (getUserIdentity c) = None ->
  let run := withSecurity handler_name typeof_args handler opts c args w in
  run = withSecurity handler_name typeof_args other_handler opts c args w /\
  fst (fst run) = Throw (ConvexError "Authentication required") /\
  snd run = [] /\
  db (snd (fst run)) = db w /\
  scheduled (snd (fst run)) = scheduled w /\
  (forall r, limiter r (snd (fst run)) = limiter r w) /\
  logs (securityAuditLogger (snd (fst run))) =
    logs (log (clock c (reads w)) warning "unauthorized_access_attempt"
              [("function", JString handler_name);
               ("args", JStrings (typeof_args args))]
              None None (securityAuditLogger w)).
Proof.
  intros Hreq Hid. simpl.
  unfold withSecurity. rewrite Hreq, Hid.
  unfold bind, try_catch, ret, throw, audit, date_now, bind. simpl.
  repeat split.
Qed.

(** X15.  When the rate limiter of the options rejects the call,
    [withSecurity] throws the rate-limit error whatever the handler is: the
    handler is not run, and the record store, the queue and all three
    limiters are left as they were. *)
Theorem rate_limited_call_never_reaches_handler
    (handler other_handler : ctx -> A -> M R) c args w r :
  (requireAuth opts = false \/ exists identity, await (getUserIdentity c) = Some identity) ->
  rateLimiter opts = Some r ->
  fst (RateLimiter.isAllowed (clock c (reads w)) (rate_limit_identifier c)
                             (limiter r w)) = false ->
  let run := withSecurity handler_name typeof_args handler opts c args w in
  run = withSecurity handler_name typeof_args other_handler opts c args w /\
  fst (fst run) = Throw (ConvexError "Rate limit exceeded. Please try again later.") /\
  snd run = [] /\
  db (snd (fst run)) = db w /\
  scheduled (snd (fst run)) = scheduled w /\
  (forall r', limiter r' (snd (fst run)) = limiter r' w).
Proof.
  intros Hauth Hrl Hlim. simpl.
  pose proof (RateLimiterFacts.isAllowed_rejected_state _ _ _ Hlim) as Hsame.
  destruct (RateLimiter.isAllowed _ _ _) as [b rl] eqn:Hcall.
  simpl in Hlim, Hsame. subst b rl.
  assert (Hgate :
    (if requireAuth opts
     then match await (getUserIdentity c) with
          | Some _ => ret tt
          | None =>
              bind (audit c warning "unauthorized_access_attempt"
                      [("function", JString handler_name);
                       ("args", JStrings (typeof_args args))])
                   (fun _ => throw (ConvexError "Authentication required"))
          end
     else ret tt) = ret tt).
  { destruct Hauth as [-> | [identity ->]]; [done |]. by destruct (requireAuth opts). }
  unfold withSecurity. rewrite Hgate, Hrl.
  unfold bind, try_catch, ret, throw, audit, limiter_isAllowed,
    limiter_getRemainingRequests, limiter_getResetTime, date_now, bind.
  pose proof (fun now => RateLimiterFacts.getResetTime_state
                           now (rate_limit_identifier c) (limiter r w)) as Hreset.
  destruct r; simpl in *; rewrite Hcall; simpl;
    match goal with
    | |- context [RateLimiter.getResetTime ?now ?i ?l] =>
        specialize (Hreset now); destruct (RateLimiter.getResetTime now i l) as [n rl]
    end; simpl in *; subst rl;
    (repeat split; intros r'; by destruct r').
Qed.

(** X16.  When the caller passes the authentication check and the rate
    limiter, [withSecurity] runs the handler once, on a world with the same
    records and queue, and hands on what the handler returns or throws
    unchanged, with the handler's effects and its changes to the records and
    the queue.  When the handler returns, the world it leaves is the world of
    the call.  When it throws, one more clock reading is taken and one entry
    "function_execution_error" is logged on top of what the handler left; the
    entry carries the name of the handler, the message of the thrown error
    ("Unknown error" if what was thrown is not an [Error]), the caller and
    the types of the arguments. *)
Theorem admitted_call_is_the_handlers (handler : ctx -> A -> M R) c args w :
  (requireAuth opts = false \/ exists identity, await (getUserIdentity c) = Some identity) ->
  (rateLimiter opts = None \/
   exists r, rateLimiter opts = Some r /\
             fst (RateLimiter.isAllowed (clock c (reads w)) (rate_limit_identifier c)
                                        (limiter r w)) = true) ->
  exists w1,
    db w1 = db w /\
    scheduled w1 = scheduled w /\
    let run := withSecurity handler_name typeof_args handler opts c args w in
    fst (fst run) = fst (fst (handler c args w1)) /\
    snd run = snd (handler c args w1) /\
    db (snd (fst run)) = db (snd (fst (handler c args w1))) /\
    scheduled (snd (fst run)) = scheduled (snd (fst (handler c args w1))) /\
    let w2 := snd (fst (handler c args w1)) in
    match fst (fst (handler c args w1)) with
    | Return _ => snd (fst run) = w2
    | Throw thrown =>
        snd (fst run) =
          set_logger
            (log (clock c (reads w2)) SecurityAuditLogger.error "function_execution_error"
                 [("function", JString handler_name);
                  ("error", JString match thrown with
                                    | ConvexError data => data
                                    | JsError message => message
                                    | JsNonError => "Unknown error"
                                    end);
                  ("userId", match await (getUserIdentity c) with
                             | Some caller => JString (subject caller)
                             | None => JUndefined
                             end);
                  ("args", JStrings (typeof_args args))]
                 None None (securityAuditLogger w2))
            (set_reads (S (reads w2)) w2)
    end.
Proof.
  intros Hauth Hlim.
  assert (Hgate :
    (if requireAuth opts
     then match await (getUserIdentity c) with
          | Some _ => ret tt
          | None =>
              bind (audit c warning "unauthorized_access_attempt"
                      [("function", JString handler_name);
                       ("args", JStrings (typeof_args args))])
                   (fun _ => throw (ConvexError "Authentication required"))
          end
     else ret tt) = ret tt).
  { destruct Hauth as [-> | [identity ->]]; [done |]. by destruct (requireAuth opts). }
  unfold withSecurity. rewrite Hgate.
  unfold bind, try_catch, ret, throw, audit, limiter_isAllowed, date_now, bind.
  destruct Hlim as [-> | (r & -> & Hadmit)].
  - destruct (truthy (auditEvent opts)); simpl;
      match goal with
      | |- context [handler c args ?w1] =>
          exists w1; destruct (handler c args w1) as [[[a | e] w2] evs]
      end; simpl; rewrite ?app_nil_r; repeat split;
      destruct e, (await (getUserIdentity c)); reflexivity.
  - destruct (RateLimiter.isAllowed _ _ _) as [b rl] eqn:Hcall.
    simpl in Hadmit. subst b.
    destruct r; simpl in *; rewrite ?Hcall; simpl;
      destruct (truthy (auditEvent opts)); simpl;
      match goal with
      | |- context [handler c args ?w1] =>
          exists w1; destruct (handler c args w1) as [[[a | e] w2] evs]
      end; simpl; rewrite ?app_nil_r; repeat split;
      destruct e, (await (getUserIdentity c)); reflexivity.
Qed.

End AnyHandler.

Lemma unauthenticated_call_stops_at_the_door_witness :
  fst (fst (secureCartoonifyImage MoreExamples.stranger_ctx (Examples.anime "st1")
              Examples.start)) =
    Throw (ConvexError "Authentication required").
Proof.
  destruct (unauthenticated_call_stops_at_the_door "" (fun _ => ["object"%string])
              cartoonify_options cartoonify_handler cartoonify_handler
              MoreExamples.stranger_ctx (Examples.anime "st1") Examples.start)
    as (_ & Hr & _); [reflexivity | reflexivity |].
  exact Hr.
Defined.

Lemma rate_limited_call_never_reaches_handler_witness :
  fst (fst (secureCartoonifyImage Examples.bob_ctx (Examples.anime "st2")
              Examples.after_three_by_alice)) =
    Throw (ConvexError "Rate limit exceeded. Please try again later.").
Proof.
  destruct (rate_limited_call_never_reaches_handler "" (fun _ => ["object"%string])
              cartoonify_options cartoonify_handler cartoonify_handler
              Examples.bob_ctx (Examples.anime "st2") Examples.after_three_by_alice
              processingRateLimiter)
    as (_ & Hr & _).
  - right. exists Examples.bob. reflexivity.
  - reflexivity.
  - vm_compute. reflexivity.
  - exact Hr.
Defined.

Lemma admitted_call_is_the_handlers_witness :
  fst (fst (withSecurity "refuse" MoreExamples.typeof_number MoreExamples.refuse
              MoreExamples.general_options Examples.alice_ctx 7%nat Examples.start)) =
    Throw (JsError "refused") /\
  fst (fst (withSecurity "echo" MoreExamples.typeof_number MoreExamples.echo
              MoreExamples.general_options Examples.alice_ctx 7%nat Examples.start)) =
    Return 7%nat.
Proof.
  split.
  - destruct (admitted_call_is_the_handlers "refuse" MoreExamples.typeof_number
                MoreExamples.general_options MoreExamples.refuse
                Examples.alice_ctx 7%nat Examples.start) as (w1 & _ & _ & Hr & _).
    + right. exists Examples.alice. reflexivity.
    + right. exists generalRateLimiter. split; [reflexivity | vm_compute; reflexivity].
    + rewrite Hr. reflexivity.
  - destruct (admitted_call_is_the_handlers "echo" MoreExamples.typeof_number
                MoreExamples.general_options MoreExamples.echo
                Examples.alice_ctx 7%nat Examples.start) as (w1 & _ & _ & Hr & _).
    + right. exists Examples.alice. reflexivity.
    + right. exists generalRateLimiter. split; [reflexivity | vm_compute; reflexivity].
    + rewrite Hr. reflexivity.
Defined.

(** *** The queries *)

Lemma set_limiter_same r w : set_limiter r (limiter r w) w = w.
Proof. by destruct r, w. Qed.

Lemma limiter_getRemainingRequests_run c r identifier w :
  limiter_getRemainingRequests c r identifier w =
    (Return (fst (RateLimiter.getRemainingRequests (clock c (reads w)) identifier
                    (limiter r w))),
     set_reads (S (reads w)) w, []).
Proof.
  unfold limiter_getRemainingRequests, bind, date_now. simpl.
  unfold RateLimiter.getRemainingRequests. simpl.
  replace (limiter r (set_reads (S (reads w)) w)) with (limiter r w) by (by destruct r).
  f_equal. f_equal. by destruct r, w.
Qed.

Lemma limiter_getResetTime_run c r identifier w :
  limiter_getResetTime c r identifier w =
    (Return (fst (RateLimiter.getResetTime (clock c (reads w)) identifier
                    (limiter r w))),
     set_reads (S (reads w)) w, []).
Proof.
  unfold limiter_getResetTime, bind, date_now. simpl.
  replace (limiter r (set_reads (S (reads w)) w)) with (limiter r w) by (by destruct r).
  pose proof (RateLimiterFacts.getResetTime_state (clock c (reads w)) identifier
                (limiter r w)) as Hstate.
  destruct (RateLimiter.getResetTime _ _ _) as [n rl]. simpl in *. subst rl.
  f_equal. f_equal. by destruct r, w.
Qed.

Lemma getRateLimitStatus_authenticated c w identity :
  await (getUserIdentity c) = Some identity ->
  let about r n :=
    mkLimitStatus
      (fst (RateLimiter.getRemainingRequests (clock c (n + reads w))
              (subject identity) (limiter r w)))
      (fst (RateLimiter.getResetTime (clock c (S n + reads w))
              (subject identity) (limiter r w))) in
  getRateLimitStatus c w =
    (Return (mkStatus (about uploadRateLimiter 0%nat)
                      (about processingRateLimiter 2%nat)
                      (about generalRateLimiter 4%nat)),
     set_reads (6 + reads w) w, []).
Proof.
  intros Hid. unfold getRateLimitStatus. rewrite Hid.
  unfold bind, ret.
  repeat (rewrite ?limiter_getRemainingRequests_run, ?limiter_getResetTime_run; simpl).
  by destruct w.
Qed.

(** X17.  [getRateLimitStatus] throws "Authentication required" for a caller
    without identity and changes nothing; for an authenticated caller it
    returns, for each of the three limiters, what [getRemainingRequests] and
    [getResetTime] say about the caller's subject, and it changes nothing
    but the number of clock readings: no request is counted. *)
Theorem rate_limit_status_is_read_only c w :
  (await (getUserIdentity c) = None ->
   getRateLimitStatus c w = (Throw (ConvexError "Authentication required"), w, [])) /\
  (forall identity,
     await (getUserIdentity c) = Some identity ->
     let about r n :=
       mkLimitStatus
         (fst (RateLimiter.getRemainingRequests (clock c (n + reads w))
                 (subject identity) (limiter r w)))
         (fst (RateLimiter.getResetTime (clock c (S n + reads w))
                 (subject identity) (limiter r w))) in
     getRateLimitStatus c w =
       (Return (mkStatus (about uploadRateLimiter 0%nat)
                         (about processingRateLimiter 2%nat)
                         (about generalRateLimiter 4%nat)),
        set_reads (6 + reads w) w, [])).
Proof.
  split.
  - intros Hid. unfold getRateLimitStatus. by rewrite Hid.
  - intros identity Hid. by apply getRateLimitStatus_authenticated.
Qed.

Lemma rate_limit_status_is_read_only_witness :
  fst (fst (getRateLimitStatus Examples.bob_ctx Examples.after_three_by_alice)) =
    Return (mkStatus (mkLimitStatus 5 1031) (mkLimitStatus 3 1033)
                     (mkLimitStatus 20 1035)) /\
  fst (fst (getRateLimitStatus MoreExamples.stranger_ctx Examples.start)) =
    Throw (ConvexError "Authentication required").
Proof.
  destruct (rate_limit_status_is_read_only Examples.bob_ctx Examples.after_three_by_alice)
    as [_ Hbob].
  destruct (rate_limit_status_is_read_only MoreExamples.stranger_ctx Examples.start)
    as [Hnone _].
  rewrite (Hbob Examples.bob eq_refl), (Hnone eq_refl).
  split; [vm_compute; reflexivity | reflexivity].
Defined.

(** What a history of calls of the mutation leaves of the limiters. *)
Lemma serve_limiters calls : forall w,
  upload_limiter (serve calls w) = upload_limiter w /\
  general_limiter (serve calls w) = general_limiter w /\
  RateLimiter.windowMs (processing_limiter (serve calls w)) =
    RateLimiter.windowMs (processing_limiter w) /\
  RateLimiter.maxRequests (processing_limiter (serve calls w)) =
    RateLimiter.maxRequests (processing_limiter w) /\
  (forall identifier, identifier <> "anonymous"%string ->
     RateLimiter.stored (processing_limiter (serve calls w)) identifier =
       RateLimiter.stored (processing_limiter w) identifier).
Proof.
  induction calls as [| [c args] calls IH]; intros w; simpl; [done |].
  destruct (call_outcomes c args w) as [(Hup & Hgen & Hproc) _]. simpl in *.
  rewrite rate_limit_identifier_anonymous in Hproc.
  destruct (IH (snd (fst (secureCartoonifyImage c args w))))
    as (IHup & IHgen & IHw & IHm & IHst).
  rewrite IHup, IHgen, IHw, IHm, Hup, Hgen, Hproc.
  split; [done |]. split; [done |].
  destruct (await (getUserIdentity c)).
  - destruct (RateLimiterFacts.isAllowed_config (clock c (reads w)) "anonymous"
                (processing_limiter w)) as [Hw Hm].
    split; [done |]. split; [done |].
    intros identifier Hne. rewrite IHst, Hproc by done.
    apply RateLimiterFacts.isAllowed_stored_other. congruence.
  - split; [done |]. split; [done |].
    intros identifier Hne. by rewrite IHst, Hproc.
Qed.

(** X18.  After any history of calls of [secureCartoonifyImage] since the
    module was loaded, [getRateLimitStatus] tells every authenticated caller
    whose subject is not "anonymous" that the full quota of each limiter
    remains (5, 3 and 20) and that the reset time is the present: the calls
    were counted under "anonymous", the status is asked for the subject. *)
Theorem rate_limit_status_never_shows_usage images calls c identity :
  await (getUserIdentity c) = Some identity ->
  subject identity <> "anonymous"%string ->
  let w := serve calls (initial_world images) in
  fst (fst (getRateLimitStatus c w)) =
    Return (mkStatus (mkLimitStatus 5 (clock c (1 + reads w)))
                     (mkLimitStatus 3 (clock c (3 + reads w)))
                     (mkLimitStatus 20 (clock c (5 + reads w)))).
Proof.
  intros Hid Hne w.
  rewrite (getRateLimitStatus_authenticated c w identity Hid). simpl.
  destruct (serve_limiters calls (initial_world images))
    as (Hup & Hgen & Hw & Hm & Hst).
  fold w in Hup, Hgen, Hw, Hm, Hst. simpl in Hup, Hgen, Hw, Hm.
  specialize (Hst (subject identity) Hne).
  unfold RateLimiter.getRemainingRequests, RateLimiter.getResetTime.
  rewrite Hup, Hgen, Hm, Hst. simpl.
  unfold RateLimiter.stored, RateLimiter.new. simpl. rewrite !lookup_empty. simpl.
  reflexivity.
Qed.

Lemma rate_limit_status_never_shows_usage_witness :
  fst (fst (getRateLimitStatus Examples.alice_ctx
              (serve [(Examples.alice_ctx, Examples.anime "st1");
                      (Examples.alice_ctx, Examples.anime "st1");
                      (Examples.alice_ctx, Examples.anime "st1")]
                 (initial_world [Examples.alice_photo; Examples.bob_photo])))) =
    Return (mkStatus (mkLimitStatus 5 1031) (mkLimitStatus 3 1033)
                     (mkLimitStatus 20 1035)).
Proof.
  rewrite (rate_limit_status_never_shows_usage
             [Examples.alice_photo; Examples.bob_photo]
             [(Examples.alice_ctx, Examples.anime "st1");
              (Examples.alice_ctx, Examples.anime "st1");
              (Examples.alice_ctx, Examples.anime "st1")]
             Examples.alice_ctx Examples.alice eq_refl); [| discriminate].
  vm_compute. reflexivity.
Defined.

(** An entry that the module writes carries no [userId]. *)
Lemma log_keeps_no_user now lvl ev det lg :
  Forall (fun e => SecurityAuditLogger.userId e = None) (logs lg) ->
  Forall (fun e => SecurityAuditLogger.userId e = None)
         (logs (log now lvl ev det None None lg)).
Proof.
  intros H. rewrite log_slice. unfold slice_last. apply Forall_drop.
  apply Forall_app. split; [done |]. by constructor.
Qed.

(** Follows a call of the mutation along each of its paths and closes every
    path with [tac]. *)
Ltac on_every_path c args w tac :=
  let caller := fresh "caller" in
  let Hid := fresh "Hid" in
  destruct (await (getUserIdentity c)) as [caller |] eqn:Hid; [| tac];
  let rl := fresh "rl" in
  let Hrl := fresh "Hrl" in
  destruct (RateLimiter.isAllowed (clock c (reads w)) (rate_limit_identifier c)
                                  (processing_limiter w)) as [[|] rl] eqn:Hrl;
  [| destruct (RateLimiter.getResetTime (clock c (S (S (reads w))))
                 (rate_limit_identifier c) rl) eqn:?; tac];
  let Hstyle := fresh "Hstyle" in
  destruct (includes allowedStyles (style args)) eqn:Hstyle; [| tac];
  let image := fresh "image" in
  let rest := fresh "rest" in
  let Hq := fresh "Hq" in
  destruct (List.filter (fun i => String.eqb (originalStorageId i) (storageId args)) (db w))
    as [| image rest] eqn:Hq; [tac |];
  destruct (String.eqb (image_userId image) (subject caller)) eqn:?; [| tac];
  destruct (is_processing (status image)) eqn:?; [tac |];
  destruct (is_completed (status image) && truthy (cartoonImageUrl image)) eqn:?;
  tac.

Lemma call_keeps_no_user c args w :
  Forall (fun e => SecurityAuditLogger.userId e = None) (logs (securityAuditLogger w)) ->
  Forall (fun e => SecurityAuditLogger.userId e = None)
         (logs (securityAuditLogger (snd (fst (secureCartoonifyImage c args w))))).
Proof.
  intros H.
  on_every_path c args w
    ltac:(run_mutation; repeat apply log_keeps_no_user; exact H).
Qed.

Lemma serve_keeps_no_user calls : forall w,
  Forall (fun e => SecurityAuditLogger.userId e = None) (logs (securityAuditLogger w)) ->
  Forall (fun e => SecurityAuditLogger.userId e = None)
         (logs (securityAuditLogger (serve calls w))).
Proof.
  induction calls as [| [c args] calls IH]; intros w H; simpl; [done |].
  apply IH. by apply call_keeps_no_user.
Qed.

Lemma last_slice_last_snoc {X} (n : nat) (l : list X) (x : X) :
  (0 < n)%nat -> last (slice_last n (l ++ [x])) = Some x.
Proof.
  intros Hn. unfold slice_last. rewrite List.skipn_app, length_app. simpl.
  replace (length l + 1 - n - length l)%nat with 0%nat by lia. simpl.
  apply last_snoc.
Qed.

(** What [getSecurityLogs] does for an authenticated caller. *)
Lemma getSecurityLogs_authenticated c args w identity :
  await (getUserIdentity c) = Some identity ->
  let lg :=
    log (clock c (1 + reads w)) info "security_logs_accessed"
        [("userId", JString (subject identity));
         ("filters.level", js_opt (logs_level args));
         ("filters.userId", js_opt (logs_userId args));
         ("filters.since", js_opt_number (logs_since args));
         ("timestamp", JIsoDate (clock c (reads w)))]
        None None (securityAuditLogger w) in
  let filter := mkFilter (logs_level args) (logs_userId args)
                         (since_date (logs_since args)) in
  getSecurityLogs c args w =
    (Return (match since_date (logs_since args) with
             | Some z => if valid_time z then List.filter (passes filter) (logs lg) else []
             | None => List.filter (passes filter) (logs lg)
             end),
     set_logger lg (set_reads (2 + reads w) w), []).
Proof.
  intros Hid. unfold getSecurityLogs. rewrite Hid.
  unfold bind, audit, date_now, bind. simpl.
  destruct (since_date (logs_since args)) as [z |] eqn:Hsince; simpl.
  - destruct (valid_time z); simpl; [| by destruct w].
    rewrite getLogs_passes. simpl. by destruct w.
  - rewrite getLogs_passes. simpl. by destruct w.
Qed.

(** X19.  [getSecurityLogs] throws "Authentication required" for a caller
    without identity, without writing anything.  For an authenticated caller
    it first logs the access and then answers from the log that already
    holds that entry: the answer has at most 1000 entries, all of them
    stored; the records, the queue and the limiters are untouched; and a
    query without filters returns the whole log, whose newest entry is the
    one of this very query. *)
Theorem security_logs_query_records_itself c args w :
  (await (getUserIdentity c) = None ->
   getSecurityLogs c args w = (Throw (ConvexError "Authentication required"), w, [])) /\
  (forall identity,
     await (getUserIdentity c) = Some identity ->
     let access :=
       mkEntry (clock c (1 + reads w)) info "security_logs_accessed"
               [("userId", JString (subject identity));
                ("filters.level", js_opt (logs_level args));
                ("filters.userId", js_opt (logs_userId args));
                ("filters.since", js_opt_number (logs_since args));
                ("timestamp", JIsoDate (clock c (reads w)))]
               None None in
     exists out w',
       getSecurityLogs c args w = (Return out, w', []) /\
       db w' = db w /\
       scheduled w' = scheduled w /\
       (forall r, limiter r w' = limiter r w) /\
       logs (securityAuditLogger w') =
         slice_last 1000 (logs (securityAuditLogger w) ++ [access]) /\
       (length out <= 1000)%nat /\
       (forall e, In e out -> In e (logs (securityAuditLogger w'))) /\
       (logs_level args = None -> logs_userId args = None -> logs_since args = None ->
        out = logs (securityAuditLogger w') /\ last out = Some access)).
Proof.
  split.
  - intros Hid. unfold getSecurityLogs. by rewrite Hid.
  - intros identity Hid access.
    rewrite (getSecurityLogs_authenticated c args w identity Hid).
    eexists _, _. split; [reflexivity |]. simpl.
    split; [done |]. split; [done |]. split; [by intros [] |].
    pose proof (log_slice (clock c (S (reads w))) info "security_logs_accessed"
                  (details access) None None (securityAuditLogger w)) as Hlogs.
    simpl in Hlogs. fold access in Hlogs.
    split; [exact Hlogs |].
    set (lg := log _ _ _ _ _ _ _) in *.
    assert (Hlen : (length (logs lg) <= 1000)%nat)
      by (rewrite Hlogs; apply slice_last_length).
    split; [| split].
    + destruct (since_date (logs_since args)) as [z |];
        [destruct (valid_time z); [| simpl; lia] |];
        (etransitivity; [apply List.filter_length_le | done]).
    + intros e. destruct (since_date (logs_since args)) as [z |];
        [destruct (valid_time z); [| done] |];
        (rewrite filter_In; tauto).
    + intros Hl Hu Hs. rewrite Hl, Hu, Hs. simpl.
      assert (Hall : List.filter (passes (mkFilter None None None)) (logs lg) = logs lg).
      { etransitivity; [apply List.filter_ext | apply filter_true].
        intros e. reflexivity. }
      rewrite Hall. split; [done |].
      rewrite Hlogs. apply last_slice_last_snoc. lia.
Qed.

Lemma security_logs_query_records_itself_witness :
  exists out w',
    getSecurityLogs Examples.alice_ctx (mkLogsArgs None None None) Examples.start =
      (Return out, w', []) /\
    length out = 1%nat.
Proof.
  destruct (security_logs_query_records_itself Examples.alice_ctx
              (mkLogsArgs None None None) Examples.start) as [_ H].
  destruct (H Examples.alice eq_refl)
    as (out & w' & Hrun & _ & _ & _ & Hlogs & _ & _ & Hall).
  exists out, w'. split; [exact Hrun |].
  destruct (Hall eq_refl eq_refl eq_refl) as [-> _].
  rewrite Hlogs. reflexivity.
Defined.

(** X20.  After any history of calls of [secureCartoonifyImage] since the
    module was loaded, a query of [getSecurityLogs] with a non-empty
    [userId] returns no entry at all: the module logs the user inside the
    details of an entry and never in the field that [getLogs] compares. *)
Theorem security_logs_by_user_are_always_empty images calls c args identity :
  await (getUserIdentity c) = Some identity ->
  truthy (logs_userId args) = true ->
  fst (fst (getSecurityLogs c args (serve calls (initial_world images)))) = Return [].
Proof.
  intros Hid Huser.
  rewrite (getSecurityLogs_authenticated c _ _ identity Hid). simpl.
  set (lg := log _ _ _ _ _ _ _).
  assert (Hnone : Forall (fun e => SecurityAuditLogger.userId e = None) (logs lg)).
  { apply log_keeps_no_user, serve_keeps_no_user. simpl. constructor. }
  assert (Hempty : forall f,
            filter_userId f = logs_userId args -> List.filter (passes f) (logs lg) = []).
  { intros f Hf. induction Hnone as [| e l He _ IH]; simpl; [done |].
    unfold passes at 1. rewrite Hf, Huser, He. simpl.
    replace (match logs_userId args with Some _ => false | None => false end)
      with false by (by destruct (logs_userId args)).
    by rewrite andb_false_r. }
  destruct (since_date (logs_since args)) as [z |];
    [destruct (valid_time z); [| done] |]; f_equal; by apply Hempty.
Qed.

Lemma security_logs_by_user_are_always_empty_witness :
  fst (fst (getSecurityLogs Examples.alice_ctx
              (mkLogsArgs None (Some "alice"%string) None)
              (serve [(Examples.alice_ctx, Examples.anime "st1")]
                 (initial_world [Examples.alice_photo])))) = Return [].
Proof.
  apply (security_logs_by_user_are_always_empty [Examples.alice_photo]
           [(Examples.alice_ctx, Examples.anime "st1")] Examples.alice_ctx
           (mkLogsArgs None (Some "alice"%string) None) Examples.alice);
    reflexivity.
Defined.

End SecurityMore.

(** ** The string utilities *)

Module SanitizeFacts.

Import Sanitize.
Local Open Scope N_scope.

Lemma Forall_of_sublist {X} (P : X -> Prop) (l k : list X) :
  l `sublist_of` k -> Forall P k -> Forall P l.
Proof.
  induction 1 as [| x l k _ IH | x l k _ IH]; intros Hk; [done | |];
    inversion Hk; subst; [constructor |]; auto.
Qed.

Lemma drop_leading_sublist p s : drop_leading p s `sublist_of` s.
Proof.
  induction s as [| c s IH]; simpl; [done |].
  destruct (p c); [by apply sublist_cons | done].
Qed.

Lemma drop_trailing_prefix p s : drop_trailing p s `prefix_of` s.
Proof.
  induction s as [| c s IH]; simpl; [done |].
  destruct (drop_trailing p s) as [| d kept].
  - destruct (p c); [apply prefix_nil | apply prefix_cons, prefix_nil].
  - by apply prefix_cons.
Qed.

Lemma prefix_is_sublist {X} (l k : list X) : l `prefix_of` k -> l `sublist_of` k.
Proof. intros [t ->]. by apply sublist_inserts_r. Qed.

Lemma collapse_sublist s : collapse_underscores s `sublist_of` s.
Proof.
  induction s as [| c s IH]; simpl; [done |].
  destruct (_ && _); [by apply sublist_cons | by apply sublist_skip].
Qed.

Lemma collapse_starts s :
  starts_with is_underscore (collapse_underscores s) = starts_with is_underscore s.
Proof.
  induction s as [| c s IH]; simpl; [done |].
  destruct (is_underscore c) eqn:Hc; simpl; [| by rewrite Hc].
  destruct (starts_with is_underscore s) eqn:Hs; simpl; [done | by rewrite Hc].
Qed.

Lemma collapse_no_double s : has_double_underscore (collapse_underscores s) = false.
Proof.
  induction s as [| c s IH]; simpl; [done |].
  destruct (is_underscore c && starts_with is_underscore s) eqn:Hcs; [done |].
  simpl. by rewrite collapse_starts, Hcs, IH.
Qed.

Lemma no_double_tail c s :
  has_double_underscore (c :: s) = false -> has_double_underscore s = false.
Proof. simpl. by intros [_ ?]%orb_false_iff. Qed.

Lemma no_double_drop_leading p s :
  has_double_underscore s = false -> has_double_underscore (drop_leading p s) = false.
Proof.
  induction s as [| c s IH]; [done |]. intros H. simpl.
  destruct (p c); [apply IH; by apply no_double_tail in H | done].
Qed.

Lemma starts_with_prefix q (l k : list N) :
  l `prefix_of` k -> starts_with q l = true -> starts_with q k = true.
Proof. intros [t ->]. by destruct l. Qed.

Lemma no_double_prefix (l k : list N) :
  l `prefix_of` k -> has_double_underscore k = false -> has_double_underscore l = false.
Proof.
  intros [t ->]. induction l as [| c l IH]; [done |]. simpl.
  intros [Hc Hrest]%orb_false_iff. rewrite (IH Hrest), orb_false_r.
  destruct (is_underscore c); [| done]. simpl in *.
  destruct (starts_with is_underscore l) eqn:Hl; [| done].
  pose proof (starts_with_prefix is_underscore l (l ++ t) ltac:(by eexists) Hl).
  congruence.
Qed.

Lemma drop_leading_starts p s : starts_with p (drop_leading p s) = false.
Proof.
  induction s as [| c s IH]; simpl; [done |].
  destruct (p c) eqn:Hc; [done | simpl; done].
Qed.

Lemma not_starts_prefix q (l k : list N) :
  l `prefix_of` k -> starts_with q k = false -> starts_with q l = false.
Proof.
  intros Hpre Hk. destruct (starts_with q l) eqn:Hl; [| done].
  by rewrite (starts_with_prefix q l k Hpre Hl) in Hk.
Qed.

Lemma replace_special_safe s :
  Forall (fun c => is_name_char c || is_underscore c = true) (replace_special s).
Proof.
  unfold replace_special. induction s as [| c s IH]; simpl; constructor; [| done].
  destruct (is_name_char c) eqn:Hc; [by rewrite Hc | by rewrite orb_true_r].
Qed.

Lemma sanitizeFileName_prefix fileName :
  sanitizeFileName fileName
    `prefix_of` drop_leading is_underscore
                  (collapse_underscores (replace_special fileName)).
Proof.
  unfold sanitizeFileName, strip_underscores.
  etransitivity; [apply prefix_take | apply drop_trailing_prefix].
Qed.

(** X21.  Whatever the name, [sanitizeFileName] returns at most 100 code
    units, each of them a letter, a digit, a dot, a hyphen or an underscore;
    the result does not begin with an underscore and has no two underscores
    in a row. *)
Theorem sanitized_file_name_is_safe (fileName : list N) :
  let out := sanitizeFileName fileName in
  (length out <= 100)%nat /\
  Forall (fun c => is_name_char c || is_underscore c = true) out /\
  starts_with is_underscore out = false /\
  has_double_underscore out = false.
Proof.
  intros out. pose proof (sanitizeFileName_prefix fileName) as Hpre. fold out in Hpre.
  split; [apply firstn_le_length |]. split; [| split].
  - eapply Forall_of_sublist; [| apply (replace_special_safe fileName)].
    etransitivity; [apply prefix_is_sublist, Hpre |].
    etransitivity; [apply drop_leading_sublist | apply collapse_sublist].
  - eapply not_starts_prefix; [exact Hpre | apply drop_leading_starts].
  - eapply no_double_prefix; [exact Hpre |].
    apply no_double_drop_leading, collapse_no_double.
Qed.

Lemma name_char_not_underscore c : is_name_char c = true -> is_underscore c = false.
Proof.
  intros H. unfold is_underscore, underscore.
  destruct (N.eqb_spec c 95) as [-> | _]; [by vm_compute in H | done].
Qed.

Lemma drop_trailing_none p s : Forall (fun c => p c = false) s -> drop_trailing p s = s.
Proof.
  induction 1 as [| c s Hc _ IH]; simpl; [done |].
  rewrite IH. destruct s; [by rewrite Hc | done].
Qed.

Lemma collapse_none s :
  Forall (fun c => is_underscore c = false) s -> collapse_underscores s = s.
Proof. induction 1 as [| c s Hc _ IH]; simpl; [done |]. by rewrite Hc, IH. Qed.

(** X22.  A name of at most 100 code units that are all letters, digits,
    dots or hyphens is returned as it is. *)
Theorem clean_file_name_is_unchanged (fileName : list N) :
  Forall (fun c => is_name_char c = true) fileName ->
  (length fileName <= 100)%nat ->
  sanitizeFileName fileName = fileName.
Proof.
  intros Hclean Hlen.
  assert (Hnone : Forall (fun c => is_underscore c = false) fileName).
  { eapply Forall_impl; [exact Hclean |]. apply name_char_not_underscore. }
  unfold sanitizeFileName, strip_underscores.
  assert (Hsame : replace_special fileName = fileName).
  { unfold replace_special. clear Hlen Hnone.
    induction Hclean as [| c s Hc _ IH]; simpl; [done |]. by rewrite Hc, IH. }
  rewrite Hsame, (collapse_none _ Hnone).
  assert (Hlead : drop_leading is_underscore fileName = fileName).
  { destruct Hnone as [| c s Hc _]; simpl; [done | by rewrite Hc]. }
  rewrite Hlead, (drop_trailing_none _ _ Hnone).
  by apply firstn_all2.
Qed.

Lemma clean_file_name_is_unchanged_witness :
  sanitizeFileName (of_string "holiday-2024.v2.png") = of_string "holiday-2024.v2.png".
Proof.
  apply clean_file_name_is_unchanged.
  - vm_compute. repeat constructor.
  - vm_compute. lia.
Defined.

Lemma drop_leading_all p s : Forall (fun c => p c = true) s -> drop_leading p s = [].
Proof. induction 1 as [| c s Hc _ IH]; simpl; [done |]. by rewrite Hc. Qed.

(** X23.  A name without any letter, digit, dot or hyphen is reduced to the
    empty string. *)
Theorem file_name_of_special_characters_becomes_empty (fileName : list N) :
  Forall (fun c => is_name_char c = false) fileName ->
  sanitizeFileName fileName = [].
Proof.
  intros Hspecial. unfold sanitizeFileName, strip_underscores.
  assert (Hall : Forall (fun c => is_underscore c = true) (replace_special fileName)).
  { unfold replace_special. induction Hspecial as [| c s Hc _ IH]; simpl; constructor;
      [by rewrite Hc | done]. }
  rewrite (drop_leading_all is_underscore).
  - reflexivity.
  - eapply Forall_of_sublist; [apply collapse_sublist | exact Hall].
Qed.

Lemma file_name_of_special_characters_becomes_empty_witness :
  sanitizeFileName (of_string "(!) ~ [#]") = [].
Proof.
  apply file_name_of_special_characters_becomes_empty.
  vm_compute. repeat constructor.
Defined.

Lemma remove_matches_sublist match_at s : forall skip,
  remove_matches match_at skip s `sublist_of` s.
Proof.
  induction s as [| c s IH]; intros skip; simpl; [done |].
  destruct skip as [| k]; [| apply sublist_cons, IH].
  destruct (match_at (c :: s)) as [[| k] |];
    [apply sublist_skip, IH | apply sublist_cons, IH | apply sublist_skip, IH].
Qed.

Lemma remove_angles_sublist s : remove_angles s `sublist_of` s.
Proof.
  unfold remove_angles. induction s as [| c s IH]; simpl; [done |].
  destruct (negb (is_angle c)); [by apply sublist_skip | by apply sublist_cons].
Qed.

Lemma remove_angles_clean s : Forall (fun c => is_angle c = false) (remove_angles s).
Proof.
  unfold remove_angles. apply List.Forall_forall. intros c [_ Hc]%filter_In.
  by apply negb_true_iff.
Qed.

Lemma trim_sublist s : trim s `sublist_of` s.
Proof.
  unfold trim. etransitivity;
    [apply prefix_is_sublist, drop_trailing_prefix | apply drop_leading_sublist].
Qed.

(** X24.  Whatever the input, [sanitizeInput] returns at most 1000 code
    units, taken from the input in their order; none of them is [<] or [>],
    and the first one is no white space. *)
Theorem sanitized_input_has_no_angle_brackets (input : list N) :
  let out := sanitizeInput input in
  (length out <= 1000)%nat /\
  out `sublist_of` input /\
  Forall (fun c => is_angle c = false) out /\
  starts_with is_space out = false.
Proof.
  intros out.
  assert (Hsub : out `sublist_of` remove_angles input).
  { unfold out, sanitizeInput.
    etransitivity; [apply sublist_take |].
    etransitivity; [apply trim_sublist |].
    etransitivity; [apply remove_matches_sublist |].
    etransitivity; [apply remove_matches_sublist |].
    apply remove_matches_sublist. }
  split; [apply firstn_le_length |]. split; [| split].
  - etransitivity; [exact Hsub | apply remove_angles_sublist].
  - eapply Forall_of_sublist; [exact Hsub | apply remove_angles_clean].
  - unfold out, sanitizeInput, trim.
    eapply not_starts_prefix; [| apply (drop_leading_starts is_space)].
    etransitivity; [apply prefix_take | apply drop_trailing_prefix].
Qed.

Lemma fold_lor_zero (l : list (N * N)) : forall acc,
  fold_left (fun result xy => N.lor result (N.lxor (fst xy) (snd xy))) l acc = 0 <->
  acc = 0 /\ Forall (fun xy => fst xy = snd xy) l.
Proof.
  induction l as [| [x y] l IH]; intros acc; simpl.
  - split; [by intros -> | by intros [-> _]].
  - rewrite IH, N.lor_eq_0_iff, N.lxor_eq_0_iff. simpl. split.
    + intros [[-> ->] Hl]. split; [done | by constructor].
    + intros [-> Hl]. inversion Hl; subst. simpl in *. done.
Qed.

Lemma combine_equal (a : list N) : forall b,
  length a = length b -> Forall (fun xy => fst xy = snd xy) (combine a b) -> a = b.
Proof.
  induction a as [| x a IH]; intros [| y b] Hlen H; simpl in *; try done.
  inversion H; subst. simpl in *. f_equal; [done |]. apply IH; [lia | done].
Qed.

Lemma combine_same (a : list N) : Forall (fun xy => fst xy = snd xy) (combine a a).
Proof. induction a; simpl; by constructor. Qed.

(** X25.  [secureCompare] answers [true] exactly for equal strings. *)
Theorem secureCompare_decides_equality (a b : list N) :
  secureCompare a b = true <-> a = b.
Proof.
  unfold secureCompare.
  destruct (Nat.eqb_spec (length a) (length b)) as [Hlen | Hlen]; simpl.
  - rewrite N.eqb_eq, fold_lor_zero. split.
    + intros [_ H]. by apply combine_equal.
    + intros ->. split; [done | apply combine_same].
  - split; [done | intros ->; done].
Qed.

Lemma hex_digit_injective d e : d < 16 -> e < 16 -> hex_digit d = hex_digit e -> d = e.
Proof.
  unfold hex_digit. intros Hd He.
  destruct (N.ltb_spec d 10), (N.ltb_spec e 10); lia.
Qed.

Lemma to_hex_injective b b' : to_hex b = to_hex b' -> b = b'.
Proof.
  unfold to_hex. intros [= Hhi Hlo].
  pose proof (Byte.to_N_bounded b). pose proof (Byte.to_N_bounded b').
  apply hex_digit_injective in Hhi;
    [| apply N.Div0.div_lt_upper_bound; lia | apply N.Div0.div_lt_upper_bound; lia].
  apply hex_digit_injective in Hlo; [| apply N.mod_lt; lia | apply N.mod_lt; lia].
  assert (Hn : Byte.to_N b = Byte.to_N b').
  { rewrite (N.div_mod (Byte.to_N b) 16), (N.div_mod (Byte.to_N b') 16) by lia.
    by rewrite Hhi, Hlo. }
  pose proof (Byte.of_to_N b) as Hb. pose proof (Byte.of_to_N b') as Hb'.
  rewrite Hn in Hb. congruence.
Qed.

Lemma hex_string_injective bytes : forall bytes',
  hex_string bytes = hex_string bytes' -> bytes = bytes'.
Proof.
  unfold hex_string.
  induction bytes as [| b bytes IH]; intros [| b' bytes']; simpl; try done.
  intros [= Hhi Hlo Hrest]. f_equal; [| by apply IH].
  apply to_hex_injective. unfold to_hex. by rewrite Hhi, Hlo.
Qed.

Lemma hex_string_length bytes : length (hex_string bytes) = (2 * length bytes)%nat.
Proof.
  unfold hex_string. induction bytes as [| b bytes IH]; simpl; [done |]. rewrite IH. lia.
Qed.

(** X26.  A token that [generateCSRFToken] makes from 32 random bytes has 64
    code units and validates against itself; against the token made from
    any other bytes it does not validate. *)
Theorem csrf_token_validates_only_against_itself (random random' : list Byte.byte) :
  length random = 32%nat ->
  length (generateCSRFToken random) = 64%nat /\
  validateCSRFToken (generateCSRFToken random) (generateCSRFToken random) = true /\
  (validateCSRFToken (generateCSRFToken random) (generateCSRFToken random') = true <->
   random = random').
Proof.
  intros Hlen. unfold generateCSRFToken, validateCSRFToken.
  rewrite hex_string_length, Hlen. simpl.
  split; [done |]. split; [by rewrite bool_decide_eq_true_2 |].
  rewrite andb_true_r, bool_decide_eq_true. split.
  - apply hex_string_injective.
  - by intros ->.
Qed.

Lemma csrf_token_validates_only_against_itself_witness :
  validateCSRFToken (generateCSRFToken (repeat Byte.xa5 32))
                    (generateCSRFToken (repeat Byte.xa5 32)) = true.
Proof.
  apply (csrf_token_validates_only_against_itself (repeat Byte.xa5 32) []).
  reflexivity.
Defined.

(** X27.  [generateSecureRandomString] returns two code units for every
    random byte, each of them one of [0-9a-f]. *)
Theorem random_string_is_lower_hex (random : list Byte.byte) :
  length (generateSecureRandomString random) = (2 * length random)%nat /\
  Forall (fun c => (48 <=? c) && (c <=? 57) || (97 <=? c) && (c <=? 102) = true)
         (generateSecureRandomString random).
Proof.
  split; [apply hex_string_length |].
  unfold generateSecureRandomString, hex_string.
  assert (Hdigit : forall d, d < 16 ->
            (48 <=? hex_digit d) && (hex_digit d <=? 57)
            || (97 <=? hex_digit d) && (hex_digit d <=? 102) = true).
  { intros d Hd. unfold hex_digit. destruct (N.ltb_spec d 10).
    - apply orb_true_iff. left. apply andb_true_iff. split; apply N.leb_le; lia.
    - apply orb_true_iff. right. apply andb_true_iff. split; apply N.leb_le; lia. }
  induction random as [| b random IH]; simpl; [constructor |].
  pose proof (Byte.to_N_bounded b).
  constructor; [apply Hdigit, N.Div0.div_lt_upper_bound; lia |].
  constructor; [apply Hdigit, N.mod_lt; lia | done].
Qed.

End SanitizeFacts.

(** ** The error handler *)

Module ErrorHandlerFacts.

Import ErrorHandler SecurityAuditLogger SecurityAuditLoggerFacts.

Section Facts.

Variable toLowerCase : string -> string.

Lemma logError_slice error errorLog :
  logError error errorLog = slice_last 100 (errorLog ++ [error]).
Proof.
  unfold logError. destruct (Nat.ltb_spec 100 (length (errorLog ++ [error]))); [done |].
  by rewrite slice_last_short.
Qed.

Lemma handle_all_slice calls : forall errorLog,
  (length errorLog <= 100)%nat ->
  handle_all toLowerCase calls errorLog =
    slice_last 100
      (errorLog ++ map (fun call => appError_of toLowerCase (fst (fst call))
                                      (snd (fst call)) (snd call)) calls).
Proof.
  induction calls as [| call calls IH]; intros errorLog Hlen; simpl.
  - rewrite app_nil_r. by rewrite slice_last_short.
  - unfold handle_all in *. simpl. rewrite IH.
    + rewrite logError_slice, slice_last_app, <- app_assoc. done.
    + rewrite logError_slice. apply slice_last_length.
Qed.

(** X28.  After any sequence of [handleError] calls on a fresh handler the
    error log holds at most 100 errors: the last 100 of those handled, in
    the order they were handled.  The error that a call returns is the
    newest entry of the log it leaves. *)
Theorem error_log_bounded_fifo (calls : list (Z * thrown * option string)) :
  let errorLog := handle_all toLowerCase calls [] in
  (length errorLog <= 100)%nat /\
  errorLog =
    slice_last 100
      (map (fun call => appError_of toLowerCase (fst (fst call)) (snd (fst call))
                          (snd call)) calls) /\
  (forall now error context,
     last (snd (handleError toLowerCase now error context errorLog)) =
       Some (fst (handleError toLowerCase now error context errorLog))).
Proof.
  intros errorLog.
  assert (Hlog : errorLog = slice_last 100
                   (map (fun call => appError_of toLowerCase (fst (fst call))
                                       (snd (fst call)) (snd call)) calls)).
  { unfold errorLog. rewrite handle_all_slice; simpl; [done | lia]. }
  split; [rewrite Hlog; apply slice_last_length |]. split; [done |].
  intros now error context. simpl. rewrite logError_slice.
  unfold slice_last. rewrite List.skipn_app, length_app. simpl.
  replace (length errorLog + 1 - 100 - length errorLog)%nat with 0%nat by lia.
  simpl. apply last_snoc.
Qed.

End Facts.

End ErrorHandlerFacts.
